(** * The AI sidebar of siyuan-plugin-copilot (src/ai-sidebar.svelte)

    A shallow embedding of the script part of the Svelte component: the
    conversation state ([messages], [currentInput], [isLoading],
    [streamingMessage], [settings], the token counters), the actions
    [sendMessage], [copyAsMarkdown], [clearChat], and the markup transform
    [formatMessage] with the regular expressions it is written with.

    JavaScript strings are sequences of UTF-16 code units; they are modelled
    as lists of code units so that [trim], the regular expressions (which, in
    the absence of the [u] flag, work on code units) and the emoji of the
    role headers (surrogate pairs) behave as in the source. *)

From Stdlib Require Import String Ascii List NArith Bool Arith Lia.
Import ListNotations.

Set Implicit Arguments.

(** ** JavaScript strings *)

Module JS.

(** A UTF-16 code unit. *)
Definition char := N.

Definition jsstring := list char.

(** An ASCII literal, read as a JavaScript string. *)
Definition lit (s : string) : jsstring :=
  map N_of_ascii (list_ascii_of_string s).

Definition eqb (s t : jsstring) : bool :=
  if list_eq_dec N.eq_dec s t then true else false.

(** [!!s] for a string: the empty string is the only falsy one. *)
Definition truthy (s : jsstring) : bool :=
  match s with
  | [] => false
  | _ :: _ => true
  end.

(** [!!v] for a value that is a string or [undefined]. *)
Definition truthy_opt (v : option jsstring) : bool :=
  match v with
  | Some s => truthy s
  | None => false
  end.

(** ECMAScript LineTerminator: LF, CR, LS, PS. *)
Definition is_line_terminator (c : char) : bool :=
  ((c =? 10) || (c =? 13) || (c =? 8232) || (c =? 8233))%N.

(** ECMAScript WhiteSpace: TAB, VT, FF, SP, NBSP, ZWNBSP and the other
    code points of category Zs (all of them in the basic plane). *)
Definition is_white_space (c : char) : bool :=
  ((c =? 9) || (c =? 11) || (c =? 12) || (c =? 32) || (c =? 160)
   || (c =? 5760) || ((8192 <=? c) && (c <=? 8202)) || (c =? 8239)
   || (c =? 8287) || (c =? 12288) || (c =? 65279))%N.

(** What [String.prototype.trim] strips. *)
Definition is_trimmed (c : char) : bool :=
  is_white_space c || is_line_terminator c.

Fixpoint trimStart (s : jsstring) : jsstring :=
  match s with
  | [] => []
  | c :: s' => if is_trimmed c then trimStart s' else s
  end.

Definition trimEnd (s : jsstring) : jsstring :=
  rev (trimStart (rev s)).

Definition trim (s : jsstring) : jsstring :=
  trimEnd (trimStart s).

(** [Array.prototype.join]. *)
Fixpoint join (sep : jsstring) (parts : list jsstring) : jsstring :=
  match parts with
  | [] => []
  | [p] => p
  | p :: ps => p ++ sep ++ join sep ps
  end.

Fixpoint startsWith (s prefix : jsstring) : bool :=
  match prefix, s with
  | [], _ => true
  | p :: prefix', c :: s' => (p =? c)%N && startsWith s' prefix'
  | _ :: _, [] => false
  end.

(** [String.prototype.includes]. *)
Fixpoint includes (s needle : jsstring) : bool :=
  startsWith s needle ||
  match s with
  | [] => false
  | _ :: s' => includes s' needle
  end.

End JS.

Import JS.

(** ** Regular expressions

    The fragment of ECMAScript regular expressions that [formatMessage]
    uses, with the backtracking semantics of the language: a literal
    character, a character class, a lazy star and a greedy plus over a
    class, a capture group, a greedy optional, and concatenation. None of
    the patterns of the source has an anchor, a word boundary or a
    look-around, so a match attempt at a position depends only on the text
    from that position on. *)

Module Regex.

Inductive regex : Type :=
| Chr (c : char)                (* a literal character *)
| Cls (p : char -> bool)        (* a class: [.], [\w], [[^`]], [[\s\S]] *)
| LazyStar (p : char -> bool)   (* [p*?] *)
| Plus (p : char -> bool)       (* [p+] *)
| Grp (i : nat) (r : regex)     (* the i-th capture group *)
| Opt (r : regex)               (* [r?] *)
| Seq (r1 r2 : regex).

(** Captures, latest first; a group that did not take part is absent. *)
Definition captures := list (nat * jsstring).

Fixpoint capture (i : nat) (caps : captures) : option jsstring :=
  match caps with
  | [] => None
  | (j, s) :: caps' => if Nat.eqb i j then Some s else capture i caps'
  end.

(** The result of an attempt: what is left of the text, and the captures. *)
Definition result := (jsstring * captures)%type.

Definition cont := jsstring -> captures -> option result.

(** [p*?] followed by [k]: the continuation first, one more character
    only when it fails. *)
Fixpoint lazy_star (p : char -> bool) (s : jsstring)
         (k : jsstring -> option result) : option result :=
  match k s with
  | Some r => Some r
  | None =>
      match s with
      | c :: s' => if p c then lazy_star p s' k else None
      | [] => None
      end
  end.

(** [p*] followed by [k]: as many characters as possible, giving them
    back one at a time while the continuation fails. *)
Fixpoint greedy_star (p : char -> bool) (s : jsstring)
         (k : jsstring -> option result) : option result :=
  match s with
  | c :: s' =>
      if p c then
        match greedy_star p s' k with
        | Some r => Some r
        | None => k s
        end
      else k s
  | [] => k s
  end.

Definition greedy_plus (p : char -> bool) (s : jsstring)
           (k : jsstring -> option result) : option result :=
  match s with
  | c :: s' => if p c then greedy_star p s' k else None
  | [] => None
  end.

(** The backtracking matcher, in continuation-passing style: [m r s caps k]
    matches [r] at the start of [s] and hands the rest to [k]. *)
Fixpoint m (r : regex) (s : jsstring) (caps : captures) (k : cont)
  : option result :=
  match r with
  | Chr c =>
      match s with
      | c' :: s' => if (c' =? c)%N then k s' caps else None
      | [] => None
      end
  | Cls p =>
      match s with
      | c' :: s' => if p c' then k s' caps else None
      | [] => None
      end
  | LazyStar p => lazy_star p s (fun s' => k s' caps)
  | Plus p => greedy_plus p s (fun s' => k s' caps)
  | Grp i r' =>
      m r' s caps
        (fun s' caps' =>
           k s' ((i, firstn (length s - length s') s) :: caps'))
  | Opt r' =>
      match m r' s caps k with
      | Some res => Some res
      | None => k s caps
      end
  | Seq r1 r2 => m r1 s caps (fun s' caps' => m r2 s' caps' k)
  end.

(** One attempt at the start of [s]: the length of the match and its
    captures. *)
Definition exec (r : regex) (s : jsstring) : option (nat * captures) :=
  match m r s [] (fun s' caps => Some (s', caps)) with
  | Some (s', caps) => Some (length s - length s', caps)
  | None => None
  end.

Fixpoint ngroups (r : regex) : nat :=
  match r with
  | Grp _ r' => S (ngroups r')
  | Opt r' => ngroups r'
  | Seq r1 r2 => ngroups r1 + ngroups r2
  | _ => 0
  end.

(** The replacement text of a match: [$n], for a digit [n] between 1 and
    the number of groups, stands for the n-th capture (the empty string
    when the group did not take part); everything else is literal. The
    templates of the source use [$1] and [$2] only. *)
Fixpoint expand (groups : nat) (tmpl : jsstring) (caps : captures)
  : jsstring :=
  match tmpl with
  | [] => []
  | c :: tl =>
      match tl with
      | d :: rest =>
          if ((c =? 36) && (49 <=? d) && (d <=? 57))%N
             && (N.to_nat (d - 48) <=? groups)
          then
            match capture (N.to_nat (d - 48)) caps with
            | Some t => t
            | None => []
            end ++ expand groups rest caps
          else c :: expand groups tl caps
      | [] => [c]
      end
  end.

(** [s.replace(/r/g, tmpl)], scanning left to right. [skip] counts the
    characters of the current match still to be passed over. An empty
    match is replaced and the scan moves on by one character. *)
Fixpoint replace_from (r : regex) (tmpl : jsstring) (skip : nat)
         (s : jsstring) : jsstring :=
  match s with
  | [] =>
      match skip, exec r [] with
      | O, Some (_, caps) => expand (ngroups r) tmpl caps
      | _, _ => []
      end
  | c :: s' =>
      match skip with
      | S n => replace_from r tmpl n s'
      | O =>
          match exec r s with
          | Some (len, caps) =>
              expand (ngroups r) tmpl caps ++
              match len with
              | O => c :: replace_from r tmpl O s'
              | S n => replace_from r tmpl n s'
              end
          | None => c :: replace_from r tmpl O s'
          end
      end
  end.

Definition replace (r : regex) (tmpl : jsstring) (s : jsstring) : jsstring :=
  replace_from r tmpl O s.

End Regex.

Import Regex.

Declare Scope regex_scope.
Delimit Scope regex_scope with re.
Infix ";;" := Seq (at level 61, right associativity) : regex_scope.

(** ** formatMessage *)

Definition star : char := 42%N.      (* the asterisk *)
Definition backtick : char := 96%N.
Definition newline : char := 10%N.
Definition quote : char := 34%N.     (* the double quote *)

(** [.]: anything but a line terminator. *)
Definition dot (c : char) : bool := negb (is_line_terminator c).

(** [[^`]]. *)
Definition not_backtick (c : char) : bool := negb (c =? backtick)%N.

(** [\w]: a letter, a digit or the underscore. *)
Definition word (c : char) : bool :=
  (((65 <=? c) && (c <=? 90)) || ((97 <=? c) && (c <=? 122))
   || ((48 <=? c) && (c <=? 57)) || (c =? 95))%N.

(** [[\s\S]]: anything. *)
Definition any (c : char) : bool :=
  (is_trimmed c) || negb (is_trimmed c).

(** [/\*\*(.*?)\*\*/g] *)
Definition re_bold : regex :=
  (Chr star ;; Chr star ;; Grp 1 (LazyStar dot) ;; Chr star ;; Chr star)%re.

(** [/\*(.*?)\*/g] *)
Definition re_italic : regex :=
  (Chr star ;; Grp 1 (LazyStar dot) ;; Chr star)%re.

(** [/`([^`]+)`/g] *)
Definition re_code : regex :=
  (Chr backtick ;; Grp 1 (Plus not_backtick) ;; Chr backtick)%re.

(** [/```(\w+)?\n([\s\S]*?)```/g] *)
Definition re_fence : regex :=
  (Chr backtick ;; Chr backtick ;; Chr backtick ;;
   Opt (Grp 1 (Plus word)) ;; Chr newline ;;
   Grp 2 (LazyStar any) ;;
   Chr backtick ;; Chr backtick ;; Chr backtick)%re.

(** [/\n/g] *)
Definition re_newline : regex := Chr newline.

Definition tmpl_bold : jsstring := lit "<strong>$1</strong>".
Definition tmpl_italic : jsstring := lit "<em>$1</em>".
Definition tmpl_code : jsstring := lit "<code>$1</code>".
Definition tmpl_fence : jsstring :=
  lit "<pre><code class=" ++ [quote] ++ lit "language-$1" ++ [quote]
      ++ lit ">$2</code></pre>".
Definition tmpl_br : jsstring := lit "<br>".

Definition formatMessage (content : jsstring) : jsstring :=
  replace re_newline tmpl_br
    (replace re_fence tmpl_fence
       (replace re_code tmpl_code
          (replace re_italic tmpl_italic
             (replace re_bold tmpl_bold content)))).

(** ** The conversation state

    [Message] and [AIProvider] are declared in ./ai-chat, which also provides
    [chat], [estimateTokens] and [calculateTotalTokens]; the notification
    functions come from ./api. The component only calls them, so numbers,
    providers, the two estimators and the adapter are parameters here. *)

Inductive Role : Type := system | user | assistant.

Record Message : Type := { role : Role; content : jsstring }.

(** [msg.role !== 'system'] *)
Definition not_system (msg : Message) : bool :=
  match role msg with
  | system => false
  | _ => true
  end.

(** What the adapter does with the three hooks it is given. *)
Inductive Callback : Type :=
| OnChunk (chunk : jsstring)
| OnComplete (fullText : jsstring)
| OnError (message : jsstring).

(** One call of [chat], seen from the component: the hooks it invokes, in
    order, and the exception it ends with, if any ([await] turns a rejected
    promise into an exception as well). *)
Record AdapterRun : Type := {
  calls : list Callback;
  thrown : option jsstring
}.

(** The outcome of [navigator.clipboard.writeText]. *)
Inductive ClipboardResult : Type :=
| Written
| Rejected (err : jsstring).

Module Sidebar.

Section Component.

Variable number : Type.
(** [!!n] for a number or [undefined]. *)
Variable number_truthy : number -> bool.
Variable default_temperature : number.     (* 0.7 *)
Variable default_maxTokens : number.       (* 2000 *)

Variable AIProvider : Type.

Record Settings : Type := {
  aiApiKey : option jsstring;
  aiModel : option jsstring;
  aiProvider : option AIProvider;
  aiSystemPrompt : option jsstring;
  aiTemperature : option number;
  aiMaxTokens : option number;
  aiCustomApiUrl : option jsstring
}.

(** The options object handed to [chat], without the hooks. *)
Record ChatOptions : Type := {
  apiKey : option jsstring;
  model : option jsstring;
  chat_messages : list Message;
  temperature : number;
  maxTokens : number;
  stream : bool
}.

Record ChatRequest : Type := {
  provider : option AIProvider;
  options : ChatOptions;
  customApiUrl : option jsstring
}.

Variable estimateTokens : jsstring -> N.
Variable calculateTotalTokens : list Message -> N.
Variable chat : ChatRequest -> AdapterRun.

(** What the component does to the outside, in order. *)
Inductive Effect : Type :=
| PushMsg (text : jsstring)
| PushErrMsg (text : jsstring)
| ConsoleError (label detail : jsstring)
| ScrollToBottom
| ChatCall (request : ChatRequest)
| ClipboardWrite (text : jsstring).

Record Component : Type := {
  messages : list Message;
  currentInput : jsstring;
  isLoading : bool;
  streamingMessage : jsstring;
  settings : Settings;
  totalTokens : N;
  inputTokens : N;
  trace : list Effect
}.

Definition no_settings : Settings :=
  {| aiApiKey := None; aiModel := None; aiProvider := None;
     aiSystemPrompt := None; aiTemperature := None; aiMaxTokens := None;
     aiCustomApiUrl := None |}.

(** The component as declared, before [onMount]. *)
Definition initial : Component :=
  {| messages := []; currentInput := []; isLoading := false;
     streamingMessage := []; settings := no_settings;
     totalTokens := 0; inputTokens := 0; trace := [] |}.

Definition set_messages (v : list Message) (c : Component) : Component :=
  {| messages := v; currentInput := currentInput c;
     isLoading := isLoading c; streamingMessage := streamingMessage c;
     settings := settings c; totalTokens := totalTokens c;
     inputTokens := inputTokens c; trace := trace c |}.

Definition set_currentInput (v : jsstring) (c : Component) : Component :=
  {| messages := messages c; currentInput := v;
     isLoading := isLoading c; streamingMessage := streamingMessage c;
     settings := settings c; totalTokens := totalTokens c;
     inputTokens := inputTokens c; trace := trace c |}.

Definition set_isLoading (v : bool) (c : Component) : Component :=
  {| messages := messages c; currentInput := currentInput c;
     isLoading := v; streamingMessage := streamingMessage c;
     settings := settings c; totalTokens := totalTokens c;
     inputTokens := inputTokens c; trace := trace c |}.

Definition set_streamingMessage (v : jsstring) (c : Component) : Component :=
  {| messages := messages c; currentInput := currentInput c;
     isLoading := isLoading c; streamingMessage := v;
     settings := settings c; totalTokens := totalTokens c;
     inputTokens := inputTokens c; trace := trace c |}.

Definition set_settings (v : Settings) (c : Component) : Component :=
  {| messages := messages c; currentInput := currentInput c;
     isLoading := isLoading c; streamingMessage := streamingMessage c;
     settings := v; totalTokens := totalTokens c;
     inputTokens := inputTokens c; trace := trace c |}.

Definition emit (e : Effect) (c : Component) : Component :=
  {| messages := messages c; currentInput := currentInput c;
     isLoading := isLoading c; streamingMessage := streamingMessage c;
     settings := settings c; totalTokens := totalTokens c;
     inputTokens := inputTokens c; trace := trace c ++ [e] |}.

Definition pushMsg (text : jsstring) : Component -> Component :=
  emit (PushMsg text).

Definition pushErrMsg (text : jsstring) : Component -> Component :=
  emit (PushErrMsg text).

(** The texts of the notifications and of the console, as code units. *)
Definition msg_no_api_key : jsstring :=       (* 请先在设置中配置 API Key *)
  [35831; 20808; 22312; 35774; 32622; 20013; 37197; 32622]%N
    ++ lit " API Key".
Definition msg_no_model : jsstring :=         (* 请先在设置中选择模型 *)
  [35831; 20808; 22312; 35774; 32622; 20013; 36873; 25321; 27169; 22411]%N.
Definition msg_request_failed : jsstring :=   (* AI 请求失败:  *)
  lit "AI " ++ [35831; 27714; 22833; 36133]%N ++ lit ": ".
Definition msg_copied : jsstring :=           (* 对话已复制为 Markdown *)
  [23545; 35805; 24050; 22797; 21046; 20026]%N ++ lit " Markdown".
Definition msg_copy_failed : jsstring :=      (* 复制失败 *)
  [22797; 21046; 22833; 36133]%N.
Definition msg_cleared : jsstring :=          (* 对话已清空 *)
  [23545; 35805; 24050; 28165; 31354]%N.
Definition log_send_error : jsstring := lit "Send message error:".
Definition log_copy_failed : jsstring := lit "Copy failed:".

Definition system_message (prompt : jsstring) : Message :=
  {| role := system; content := prompt |}.

(** The value of [settings.aiSystemPrompt] when it is truthy. *)
Definition system_prompt (s : Settings) : option jsstring :=
  match aiSystemPrompt s with
  | Some p => if truthy p then Some p else None
  | None => None
  end.

(** [function updateTokenCount()] *)
Definition updateTokenCount (c : Component) : Component :=
  {| messages := messages c; currentInput := currentInput c;
     isLoading := isLoading c; streamingMessage := streamingMessage c;
     settings := settings c;
     totalTokens := calculateTotalTokens (messages c);
     inputTokens := estimateTokens (currentInput c);
     trace := trace c |}.

(** [onMount]: [loaded] is what [plugin.loadSettings()] resolves to. *)
Definition onMount (loaded : Settings) (c : Component) : Component :=
  let c := set_settings loaded c in
  let c :=
    match system_prompt loaded with
    | Some p => set_messages [system_message p] c
    | None => c
    end in
  updateTokenCount c.

(** [async function scrollToBottom()]; the layout itself is not modelled. *)
Definition scrollToBottom (c : Component) : Component :=
  emit ScrollToBottom c.

(** The user edits the draft; the reactive block on [currentInput]
    recomputes the token counts. *)
Definition input (text : jsstring) (c : Component) : Component :=
  updateTokenCount (set_currentInput text c).

(** [onChunk], [onComplete] and [onError] of [sendMessage]. *)
Definition onChunk (chunk : jsstring) (c : Component) : Component :=
  let c := set_streamingMessage (streamingMessage c ++ chunk) c in
  scrollToBottom c.

Definition onComplete (fullText : jsstring) (c : Component) : Component :=
  let assistantMessage := {| role := assistant; content := fullText |} in
  let c := set_messages (messages c ++ [assistantMessage]) c in
  let c := set_streamingMessage [] c in
  let c := set_isLoading false c in
  updateTokenCount c.

Definition onError (message : jsstring) (c : Component) : Component :=
  let c := pushErrMsg (msg_request_failed ++ message) c in
  let c := set_isLoading false c in
  set_streamingMessage [] c.

Definition callback (c : Component) (cb : Callback) : Component :=
  match cb with
  | OnChunk chunk => onChunk chunk c
  | OnComplete fullText => onComplete fullText c
  | OnError message => onError message c
  end.

(** The [catch] clause of [sendMessage]. *)
Definition catch (error : jsstring) (c : Component) : Component :=
  let c := emit (ConsoleError log_send_error error) c in
  let c := set_isLoading false c in
  set_streamingMessage [] c.

(** [!currentInput.trim() || isLoading] *)
Definition send_refused (c : Component) : bool :=
  negb (truthy (trim (currentInput c))) || isLoading c.

(** Lines 73 to 83 of the source: the user message is appended, the draft,
    the flag and the buffer are set; [await scrollToBottom()] lets the
    reactive block on [currentInput] run, which recomputes the token
    counts. *)
Definition begin_turn (c : Component) : Component :=
  let userMessage := {| role := user; content := trim (currentInput c) |} in
  let c := set_messages (messages c ++ [userMessage]) c in
  let c := set_currentInput [] c in
  let c := set_isLoading true c in
  let c := set_streamingMessage [] c in
  scrollToBottom (updateTokenCount c).

(** [messagesToSend] *)
Definition messagesToSend (c : Component) : list Message :=
  let sent := filter not_system (messages c) in
  match system_prompt (settings c) with
  | Some p => system_message p :: sent
  | None => sent
  end.

(** [a || b] on an optional number. *)
Definition or_default (v : option number) (d : number) : number :=
  match v with
  | Some n => if number_truthy n then n else d
  | None => d
  end.

(** The arguments of the call of [chat]. *)
Definition request (c : Component) : ChatRequest :=
  {| provider := aiProvider (settings c);
     options :=
       {| apiKey := aiApiKey (settings c);
          model := aiModel (settings c);
          chat_messages := messagesToSend c;
          temperature := or_default (aiTemperature (settings c))
                                    default_temperature;
          maxTokens := or_default (aiMaxTokens (settings c))
                                  default_maxTokens;
          stream := true |};
     customApiUrl := aiCustomApiUrl (settings c) |}.

(** The hooks, run in the order in which the adapter invokes them. *)
Definition deliver (cbs : list Callback) (c : Component) : Component :=
  fold_left callback cbs c.

(** The [try] block: the adapter is called, its hooks run, and an exception
    ends in the [catch] clause. *)
Definition call_adapter (c : Component) : Component :=
  let run := chat (request c) in
  let c := emit (ChatCall (request c)) c in
  let c := deliver (calls run) c in
  match thrown run with
  | Some error => catch error c
  | None => c
  end.

(** Is the effect a call of the adapter? *)
Definition is_call (e : Effect) : bool :=
  match e with
  | ChatCall _ => true
  | _ => false
  end.

(** Both [settings.aiApiKey] and [settings.aiModel] are truthy. *)
Definition configured (c : Component) : Prop :=
  truthy_opt (aiApiKey (settings c)) = true
  /\ truthy_opt (aiModel (settings c)) = true.

(** [async function sendMessage()] *)
Definition sendMessage (c : Component) : Component :=
  if send_refused c then c
  else if negb (truthy_opt (aiApiKey (settings c))) then
    pushErrMsg msg_no_api_key c
  else if negb (truthy_opt (aiModel (settings c))) then
    pushErrMsg msg_no_model c
  else call_adapter (begin_turn c).

(** The Markdown block of one message. *)
Definition header_user : jsstring :=          (* 👤 **User** *)
  [55357; 56420]%N ++ lit " **User**".
Definition header_assistant : jsstring :=     (* 🤖 **Assistant** *)
  [55358; 56598]%N ++ lit " **Assistant**".
Definition rule : jsstring := [newline] ++ lit "---" ++ [newline; newline].

Definition block (msg : Message) : jsstring :=
  let role :=
    match role msg with
    | user => header_user
    | _ => header_assistant
    end in
  role ++ [newline; newline] ++ content msg ++ [newline].

Definition markdown (history : list Message) : jsstring :=
  join rule (map block (filter not_system history)).

(** [function copyAsMarkdown()]; [written] is how the clipboard answers. *)
Definition copyAsMarkdown (written : ClipboardResult) (c : Component)
  : Component :=
  let c := emit (ClipboardWrite (markdown (messages c))) c in
  match written with
  | Written => pushMsg msg_copied c
  | Rejected err =>
      let c := pushErrMsg msg_copy_failed c in
      emit (ConsoleError log_copy_failed err) c
  end.

(** [function clearChat()] *)
Definition clearChat (c : Component) : Component :=
  let c :=
    set_messages
      match system_prompt (settings c) with
      | Some p => [system_message p]
      | None => []
      end c in
  let c := set_streamingMessage [] c in
  let c := updateTokenCount c in
  pushMsg msg_cleared c.

(** [function handleKeydown(e)]: Enter without shift sends. *)
Definition handleKeydown (key : jsstring) (shiftKey : bool) (c : Component)
  : Component :=
  if JS.eqb key (lit "Enter") && negb shiftKey then sendMessage c else c.

(** ** The markup of the component: what is shown, what is disabled *)

(** [messages.filter(msg => msg.role !== 'system')]: the messages shown. *)
Definition shown (c : Component) : list Message :=
  filter not_system (messages c).

(** [{#if isLoading && streamingMessage}]: the streaming bubble. *)
Definition shows_streaming (c : Component) : bool :=
  isLoading c && truthy (streamingMessage c).

(** [{#if messages.filter(...).length === 0 && !isLoading}]: the hint of
    the empty conversation. *)
Definition shows_empty (c : Component) : bool :=
  (length (shown c) =? 0) && negb (isLoading c).

(** [disabled={isLoading}] on the textarea. *)
Definition input_disabled (c : Component) : bool := isLoading c.

(** [disabled={isLoading || !currentInput.trim()}] on the send button. *)
Definition send_disabled (c : Component) : bool :=
  isLoading c || negb (truthy (trim (currentInput c))).

(** ** The component as a machine of events

    [sendMessage] is asynchronous: what it does before the adapter answers
    is one event, each hook the adapter invokes is another, and the user
    may act in between. *)

(** The history that [onMount] and [clearChat] build from the settings. *)
Definition seeded (s : Settings) : list Message :=
  match system_prompt s with
  | Some p => [system_message p]
  | None => []
  end.

(** [sendMessage] up to the call of [chat]. *)
Definition send_start (c : Component) : Component :=
  if send_refused c then c
  else if negb (truthy_opt (aiApiKey (settings c))) then
    pushErrMsg msg_no_api_key c
  else if negb (truthy_opt (aiModel (settings c))) then
    pushErrMsg msg_no_model c
  else emit (ChatCall (request (begin_turn c))) (begin_turn c).

Inductive Event : Type :=
| Edit (text : jsstring)                    (* the user edits the draft *)
| Send                                      (* a click on the send button *)
| Key (key : jsstring) (shiftKey : bool)    (* a key pressed in the draft *)
| Hook (cb : Callback)                      (* the adapter invokes a hook *)
| Caught (error : jsstring)                 (* the call of [chat] throws *)
| Copy (written : ClipboardResult)          (* a click on the copy button *)
| Clear.                                    (* a click on the clear button *)

Definition step (c : Component) (e : Event) : Component :=
  match e with
  | Edit text => input text c
  | Send => send_start c
  | Key key shiftKey =>
      if JS.eqb key (lit "Enter") && negb shiftKey then send_start c else c
  | Hook cb => callback c cb
  | Caught error => catch error c
  | Copy written => copyAsMarkdown written c
  | Clear => clearChat c
  end.

(** The component after [onMount] and a sequence of events. *)
Definition life (loaded : Settings) (events : list Event) : Component :=
  fold_left step events (onMount loaded initial).

(** The events of one call of [chat]. *)
Definition events_of (run : AdapterRun) : list Event :=
  map Hook (calls run)
      ++ match thrown run with
         | Some error => [Caught error]
         | None => []
         end.

(** The history is the seed of the settings followed by messages of the
    user and of the assistant. *)
Definition seeded_history (c : Component) : Prop :=
  exists rest,
    messages c = seeded (settings c) ++ rest
    /\ forallb not_system rest = true.

(** The counters are those of the history and of the draft. *)
Definition counted (c : Component) : Prop :=
  totalTokens c = calculateTotalTokens (messages c)
  /\ inputTokens c = estimateTokens (currentInput c).

End Component.

End Sidebar.

Import Sidebar.

Arguments no_settings {number AIProvider}.
Arguments initial {number AIProvider}.
Arguments PushMsg {number AIProvider} text.
Arguments PushErrMsg {number AIProvider} text.
Arguments ConsoleError {number AIProvider} label detail.
Arguments ScrollToBottom {number AIProvider}.
Arguments ClipboardWrite {number AIProvider} text.

(** ** Reference definitions, in the words of the specification *)

(** The newline-to-break substitution, and no other change. *)
Fixpoint nl2br (text : jsstring) : jsstring :=
  match text with
  | [] => []
  | c :: text' => (if (c =? newline)%N then tmpl_br else [c]) ++ nl2br text'
  end.

(** Text with none of the markup tokens: the bold and italic markers are
    made of asterisks, the inline and fenced code markers of backticks. *)
Definition plain (text : jsstring) : Prop :=
  ~ In star text /\ ~ In backtick text.

(** Is there anything but system entries in the history? *)
Definition has_conversation (history : list Message) : bool :=
  existsb not_system history.


(** A fenced block: three backticks, the language, a newline, the body, three
    backticks. *)
Definition fenced (lang body : jsstring) : jsstring :=
  [backtick; backtick; backtick] ++ lang ++ [newline] ++ body
    ++ [backtick; backtick; backtick].

Definition less_than : char := 60%N.

(** Where a backtick is followed by a character other than a backtick and
    the opening of a tag, no backtick comes later. *)
Definition settled (text : jsstring) : Prop :=
  forall u c v,
    text = u ++ backtick :: c :: v ->
    c <> backtick -> c <> less_than -> ~ In backtick v.

(** ** A concrete component, for the examples

    Numbers are fractions here, a provider is its name, a text is estimated
    at one token per code unit. *)

Module Demo.

Definition number : Type := (N * N)%type.
Definition number_truthy (n : number) : bool := negb (fst n =? 0)%N.
Definition default_temperature : number := (7, 10)%N.
Definition default_maxTokens : number := (2000, 1)%N.
Definition AIProvider : Type := jsstring.

Definition estimateTokens (text : jsstring) : N := N.of_nat (length text).
Definition calculateTotalTokens (history : list Message) : N :=
  fold_right (fun msg n => (estimateTokens (content msg) + n)%N) 0%N history.

Definition settings (key : jsstring) (prompt : option jsstring)
  : Settings number AIProvider :=
  {| aiApiKey := Some key; aiModel := Some (lit "gpt-x");
     aiProvider := Some (lit "openai"); aiSystemPrompt := prompt;
     aiTemperature := None; aiMaxTokens := None; aiCustomApiUrl := None |}.

(** A mounted component with the draft [draft]. *)
Definition mounted (key : jsstring) (prompt : option jsstring)
           (draft : jsstring) : Component number AIProvider :=
  input estimateTokens calculateTotalTokens draft
    (onMount estimateTokens calculateTotalTokens (settings key prompt)
       initial).

(** An adapter that streams its answer and completes. *)
Definition answering (answer : jsstring)
           (_ : ChatRequest number AIProvider) : AdapterRun :=
  {| calls := [OnChunk answer; OnComplete answer]; thrown := None |}.

Definition answering_four : ChatRequest number AIProvider -> AdapterRun :=
  answering (lit "4").

(** An adapter that has not answered yet. *)
Definition pending (_ : ChatRequest number AIProvider) : AdapterRun :=
  {| calls := []; thrown := None |}.

(** An adapter that reports a failure after a first chunk. *)
Definition failing (_ : ChatRequest number AIProvider) : AdapterRun :=
  {| calls := [OnChunk (lit "par"); OnError (lit "network down")];
     thrown := None |}.

(** An adapter that throws. *)
Definition throwing (_ : ChatRequest number AIProvider) : AdapterRun :=
  {| calls := []; thrown := Some (lit "TypeError: fetch failed") |}.

Definition send (chat : ChatRequest number AIProvider -> AdapterRun)
  : Component number AIProvider -> Component number AIProvider :=
  sendMessage number_truthy default_temperature default_maxTokens
              estimateTokens calculateTotalTokens chat.

(** Configured, no system prompt, the draft [hello] between two spaces. *)
Definition ready : Component number AIProvider :=
  mounted (lit "sk-demo") None (lit " hello ").

(** A turn in flight, and a new draft typed meanwhile. *)
Definition in_flight : Component number AIProvider :=
  input estimateTokens calculateTotalTokens (lit "again") (send pending ready).

(** The API key is the empty string. *)
Definition unconfigured : Component number AIProvider :=
  mounted [] None (lit "hello").

(** The fenced block of the example: [```js], [**x**], [```]. *)
Definition fence_example : jsstring :=
  fenced (lit "js") (lit "**x**" ++ [newline]).

(** Mounted with a system prompt, nothing typed yet. *)
Definition prompted : Component number AIProvider :=
  mounted (lit "sk-demo") (Some (lit "Be brief.")) [].

(** A draft of white space only. *)
Definition blank : Component number AIProvider :=
  mounted (lit "sk-demo") None ([32; 9; 10; 160; 32]%N).

End Demo.

(** A continuation that goes on at the character [g] only. *)
Definition gated_by (g : char) (k : jsstring -> option result) : Prop :=
  forall t, k t <> None -> hd_error t = Some g.

(** Text without a line terminator. *)
Definition one_line (text : jsstring) : Prop :=
  forall c, In c text -> is_line_terminator c = false.

(** A continuation that goes on at a backtick only. *)
Definition gated (k : jsstring -> option result) : Prop :=
  forall t, k t <> None -> hd_error t = Some backtick.

(** What follows the group of [re_code], as a continuation: the closing
    backtick; [s] is the text at the start of the group. *)
Definition code_rest (s : jsstring) (s' : jsstring) : option result :=
  match s' with
  | c :: s'' =>
      if (c =? backtick)%N
      then Some (s'', [(1, firstn (length s - length s') s)])
      else None
  | [] => None
  end.

(** ** Facts about the matcher *)

Section Matcher.

Implicit Types (r : regex) (s t : jsstring) (k : cont).

Lemma m_Chr_inv c s caps k res :
  m (Chr c) s caps k = Some res ->
  exists s', s = c :: s' /\ k s' caps = Some res.
Proof.
  destruct s as [|c' s']; simpl; [discriminate|].
  destruct (N.eqb_spec c' c) as [->|_]; [|discriminate].
  intros H. now exists s'.
Qed.

Lemma lazy_star_suffix p s (k : jsstring -> option result) res :
  lazy_star p s k = Some res ->
  exists pre s', s = pre ++ s' /\ k s' = Some res.
Proof.
  induction s as [|c s IH]; simpl.
  - destruct (k []) eqn:E; [|discriminate].
    intros [= <-]. now exists [], [].
  - destruct (k (c :: s)) eqn:E.
    + intros [= <-]. now exists [], (c :: s).
    + destruct (p c); [|discriminate].
      intros H. destruct (IH H) as (pre & s' & -> & Hk).
      now exists (c :: pre), s'.
Qed.

Lemma greedy_star_suffix p s (k : jsstring -> option result) res :
  greedy_star p s k = Some res ->
  exists pre s', s = pre ++ s' /\ k s' = Some res.
Proof.
  induction s as [|c s IH]; simpl.
  - intros H. now exists [], [].
  - destruct (p c).
    + destruct (greedy_star p s k) eqn:E.
      * intros [= <-]. destruct (IH eq_refl) as (pre & s' & -> & Hk).
        now exists (c :: pre), s'.
      * intros H. now exists [], (c :: s).
    + intros H. now exists [], (c :: s).
Qed.

Lemma greedy_plus_inv p s (k : jsstring -> option result) res :
  greedy_plus p s k = Some res ->
  exists c pre s', s = c :: pre ++ s' /\ p c = true /\ k s' = Some res.
Proof.
  destruct s as [|c s]; simpl; [discriminate|].
  destruct (p c) eqn:E; [|discriminate].
  intros H. destruct (greedy_star_suffix _ _ _ H) as (pre & s' & -> & Hk).
  now exists c, pre, s'.
Qed.

(** A successful attempt hands a suffix of the text to its continuation. *)
Lemma m_suffix r : forall s caps k res,
  m r s caps k = Some res ->
  exists pre s' caps', s = pre ++ s' /\ k s' caps' = Some res.
Proof.
  induction r as [c|p|p|p|i r IH|r IH|r1 IH1 r2 IH2]; intros s caps k res H.
  - apply m_Chr_inv in H. destruct H as (s' & -> & H).
    now exists [c], s', caps.
  - destruct s as [|c s]; simpl in H; [discriminate|].
    destruct (p c); [|discriminate]. now exists [c], s, caps.
  - simpl in H. apply lazy_star_suffix in H.
    destruct H as (pre & s' & -> & H). now exists pre, s', caps.
  - simpl in H. apply greedy_plus_inv in H.
    destruct H as (c & pre & s' & -> & _ & H). now exists (c :: pre), s', caps.
  - simpl in H. apply IH in H. destruct H as (pre & s' & caps' & -> & H).
    eauto.
  - simpl in H. destruct (m r s caps k) eqn:E.
    + inversion H; subst. now apply IH in E.
    + now exists [], s, caps.
  - simpl in H. apply IH1 in H. destruct H as (pre & s' & caps' & -> & H).
    apply IH2 in H. destruct H as (pre' & s'' & caps'' & -> & H).
    exists (pre ++ pre'), s'', caps''. now rewrite <- app_assoc.
Qed.

(** A pattern that opens with a literal character fails where the text
    does not. *)
Lemma exec_first_char c r s :
  hd_error s <> Some c -> exec (Chr c ;; r)%re s = None.
Proof.
  intros Hs. unfold exec. simpl.
  destruct s as [|c' s']; [reflexivity|].
  destruct (N.eqb_spec c' c) as [->|_]; [now elim Hs | reflexivity].
Qed.

Lemma exec_Chr c s :
  exec (Chr c) s =
  match s with
  | c' :: _ => if (c' =? c)%N then Some (1, []) else None
  | [] => None
  end.
Proof.
  unfold exec. destruct s as [|c' s']; cbn [m]; [reflexivity|].
  destruct (c' =? c)%N; [|reflexivity].
  do 2 f_equal. cbn [length]. lia.
Qed.

(** Where the pattern matches at no position, the text is left as it is. *)
Lemma replace_no_match r tmpl : forall s,
  (forall u t, s = u ++ t -> exec r t = None) ->
  replace r tmpl s = s.
Proof.
  unfold replace. induction s as [|c s IH]; intros H; simpl.
  - now rewrite (H [] [] eq_refl).
  - rewrite (H [] (c :: s) eq_refl). f_equal. apply IH.
    intros u t ->. now apply (H (c :: u) t).
Qed.

Lemma replace_absent_char c r tmpl s :
  ~ In c s -> replace (Chr c ;; r)%re tmpl s = s.
Proof.
  intros Hc. apply replace_no_match. intros u t ->.
  apply exec_first_char. destruct t as [|c' t]; [discriminate|].
  intros [= ->]. apply Hc, in_or_app. right. now left.
Qed.

(** Passing over the rest of a match is resuming after it. *)
Lemma replace_from_skip r tmpl : forall n s,
  n <= length s ->
  replace_from r tmpl n s = replace_from r tmpl 0 (skipn n s).
Proof.
  induction n as [|n IH]; intros s Hn; [reflexivity|].
  destruct s as [|c s]; simpl in Hn; [lia|].
  simpl. apply IH. lia.
Qed.

End Matcher.

(** ** Facts about the substitutions of formatMessage *)

Lemma replace_from_cons r tmpl c s :
  replace_from r tmpl 0 (c :: s) =
  match exec r (c :: s) with
  | Some (len, caps) =>
      expand (ngroups r) tmpl caps ++
      match len with
      | O => c :: replace_from r tmpl 0 s
      | S n => replace_from r tmpl n s
      end
  | None => c :: replace_from r tmpl 0 s
  end.
Proof. reflexivity. Qed.

(** The last substitution is the newline-to-break substitution. *)
Lemma replace_newline_nl2br s : replace re_newline tmpl_br s = nl2br s.
Proof.
  unfold replace, re_newline. induction s as [|c s IH]; [reflexivity|].
  rewrite replace_from_cons, exec_Chr. cbn [nl2br].
  destruct (c =? newline)%N; rewrite IH; reflexivity.
Qed.

Lemma in_nl2br x s : In x (nl2br s) -> In x s \/ In x tmpl_br.
Proof.
  induction s as [|c s IH]; cbn [nl2br]; [tauto|].
  intros H. apply in_app_or in H. destruct H as [H|H].
  - destruct (c =? newline)%N; [now right|].
    destruct H as [->|[]]. left. now left.
  - destruct (IH H); [left; now right | now right].
Qed.

Lemma nl2br_no_newline s : ~ In newline (nl2br s).
Proof.
  induction s as [|c s IH]; cbn [nl2br]; [tauto|].
  intros H. apply in_app_or in H. destruct H as [H|H]; [|tauto].
  destruct (N.eqb_spec c newline) as [->|Hc].
  - vm_compute in H. intuition discriminate.
  - destruct H as [->|[]]. now elim Hc.
Qed.

Lemma nl2br_id s : ~ In newline s -> nl2br s = s.
Proof.
  induction s as [|c s IH]; intros H; cbn [nl2br]; [reflexivity|].
  destruct (N.eqb_spec c newline) as [->|_].
  - elim H. now left.
  - rewrite IH; [reflexivity|]. intros Hs. apply H. now right.
Qed.

Lemma plain_nl2br s : plain s -> plain (nl2br s).
Proof.
  intros [Hs Hb]. split; intros H; apply in_nl2br in H;
    (destruct H as [H|H]; [tauto | vm_compute in H; intuition discriminate]).
Qed.

Lemma formatMessage_plain s : plain s -> formatMessage s = nl2br s.
Proof.
  intros [Hs Hb]. unfold formatMessage, re_bold, re_italic, re_code, re_fence.
  rewrite 2 (@replace_absent_char star _ _ _ Hs).
  rewrite 2 (@replace_absent_char backtick _ _ _ Hb).
  apply replace_newline_nl2br.
Qed.

(** *** The inline-code substitution *)

Lemma m_Seq r1 r2 s caps k :
  m (r1 ;; r2)%re s caps k = m r1 s caps (fun s' caps' => m r2 s' caps' k).
Proof. reflexivity. Qed.

Lemma m_Grp_Plus i p s caps k :
  m (Grp i (Plus p)) s caps k =
  greedy_plus p s
    (fun s' => k s' ((i, firstn (length s - length s') s) :: caps)).
Proof. reflexivity. Qed.

Lemma m_Opt_inv r s caps k res :
  m (Opt r) s caps k = Some res ->
  m r s caps k = Some res \/ k s caps = Some res.
Proof.
  simpl. destruct (m r s caps k); [left | right]; assumption.
Qed.

Lemma split_backtick s :
  ~ In backtick s \/
  exists run rest, s = run ++ backtick :: rest /\ ~ In backtick run.
Proof.
  induction s as [|c s IH]; [left; tauto|].
  destruct (N.eq_dec c backtick) as [->|Hc].
  - right. exists [], s. split; [reflexivity | tauto].
  - destruct IH as [IH|(run & rest & -> & Hrun)].
    + left. intros [H|H]; [now elim Hc | tauto].
    + right. exists (c :: run), rest. split; [reflexivity|].
      intros [H|H]; [now elim Hc | tauto].
Qed.

Lemma not_backtick_true c : c <> backtick -> not_backtick c = true.
Proof.
  intros Hc. unfold not_backtick. now destruct (N.eqb_spec c backtick).
Qed.

Lemma gated_cons k c s : gated k -> c <> backtick -> k (c :: s) = None.
Proof.
  intros Hk Hc. destruct (k (c :: s)) eqn:E; [|reflexivity].
  assert (H : hd_error (c :: s) = Some backtick)
    by (apply Hk; rewrite E; discriminate).
  injection H as H. now elim Hc.
Qed.

Lemma greedy_star_gated_split k run rest :
  gated k -> ~ In backtick run ->
  greedy_star not_backtick (run ++ backtick :: rest) k = k (backtick :: rest).
Proof.
  intros Hk. induction run as [|c run IH]; intros Hrun; [reflexivity|].
  assert (Hc : c <> backtick) by (intros ->; apply Hrun; now left).
  cbn [app greedy_star]. rewrite (not_backtick_true Hc), IH.
  - destruct (k (backtick :: rest)); [reflexivity|]. now apply gated_cons.
  - intros H. apply Hrun. now right.
Qed.

Lemma greedy_star_gated_none k s :
  gated k -> ~ In backtick s -> greedy_star not_backtick s k = None.
Proof.
  intros Hk. induction s as [|c s IH]; intros Hs; cbn [greedy_star].
  - destruct (k []) eqn:E; [|reflexivity].
    assert (H : hd_error (@nil char) = Some backtick)
      by (apply Hk; rewrite E; discriminate).
    discriminate.
  - assert (Hc : c <> backtick) by (intros ->; apply Hs; now left).
    rewrite (not_backtick_true Hc), IH.
    + now apply gated_cons.
    + intros H. apply Hs. now right.
Qed.

Lemma code_rest_gated s : gated (code_rest s).
Proof.
  intros [|c t]; cbn [code_rest]; [congruence|].
  destruct (N.eqb_spec c backtick) as [->|_]; [reflexivity | congruence].
Qed.

Lemma exec_code_unfold s :
  exec re_code (backtick :: s) =
  match greedy_plus not_backtick s (code_rest s) with
  | Some (s', caps) => Some (length (backtick :: s) - length s', caps)
  | None => None
  end.
Proof. reflexivity. Qed.

Lemma firstn_length_app (a b : jsstring) x :
  firstn (length (a ++ x :: b) - length (x :: b)) (a ++ x :: b) = a.
Proof.
  rewrite length_app.
  replace (length a + length (x :: b) - length (x :: b)) with (length a + 0)
    by lia.
  rewrite firstn_app_2. cbn [firstn]. apply app_nil_r.
Qed.

Lemma exec_code_match c run rest :
  c <> backtick -> ~ In backtick run ->
  exec re_code (backtick :: c :: run ++ backtick :: rest) =
  Some (S (S (S (length run))), [(1, c :: run)]).
Proof.
  intros Hc Hrun. rewrite exec_code_unfold. cbn [greedy_plus].
  rewrite (not_backtick_true Hc).
  rewrite greedy_star_gated_split by (auto using code_rest_gated).
  cbn [code_rest]. rewrite N.eqb_refl.
  pose proof (firstn_length_app (c :: run) rest backtick) as E.
  cbn [app] in E. rewrite E.
  do 2 f_equal. cbn [length]. rewrite length_app. cbn [length]. lia.
Qed.

Lemma exec_code_unclosed c s :
  c <> backtick -> ~ In backtick s ->
  exec re_code (backtick :: c :: s) = None.
Proof.
  intros Hc Hs. rewrite exec_code_unfold. cbn [greedy_plus].
  rewrite (not_backtick_true Hc).
  now rewrite greedy_star_gated_none by (auto using code_rest_gated).
Qed.

Lemma exec_code_double s : exec re_code (backtick :: backtick :: s) = None.
Proof. reflexivity. Qed.

Lemma expand_code run :
  expand (ngroups re_code) tmpl_code [(1, run)] =
  lit "<code>" ++ run ++ lit "</code>".
Proof. reflexivity. Qed.

Lemma settled_nil : settled [].
Proof. intros [|x u] c v H; discriminate. Qed.

Lemma settled_cons_other c t :
  c <> backtick -> settled t -> settled (c :: t).
Proof.
  intros Hc Ht [|x u] d v H Hd Hl.
  - injection H as H _. now elim Hc.
  - injection H as _ H. now apply (Ht u d v).
Qed.

Lemma settled_prefix a t :
  ~ In backtick a -> settled t -> settled (a ++ t).
Proof.
  induction a as [|c a IH]; intros Ha Ht; [assumption|].
  cbn [app]. apply settled_cons_other.
  - intros ->. apply Ha. now left.
  - apply IH; [|assumption]. intros H. apply Ha. now right.
Qed.

Lemma settled_no_backtick t : ~ In backtick t -> settled (backtick :: t).
Proof.
  intros Ht [|x u] d v H Hd Hl Hv.
  - injection H as ->. apply Ht. now right.
  - injection H as _ ->. apply Ht, in_or_app. right. now left.
Qed.

Lemma settled_cons_backtick t :
  settled t ->
  (forall c, hd_error t = Some c -> c = backtick \/ c = less_than) ->
  settled (backtick :: t).
Proof.
  intros Ht Hh [|x u] d v H Hd Hl.
  - injection H as ->. destruct (Hh d eq_refl); contradiction.
  - injection H as _ H. now apply (Ht u d v).
Qed.

Lemma replace_code_head s c :
  hd_error (replace_from re_code tmpl_code 0 (backtick :: s)) = Some c ->
  c = backtick \/ c = less_than.
Proof.
  rewrite replace_from_cons.
  destruct (exec re_code (backtick :: s)) as [[len caps]|].
  - intros [= <-]. now right.
  - intros [= <-]. now left.
Qed.

Lemma skipn_past (a b : jsstring) x :
  skipn (S (length a)) (a ++ x :: b) = b.
Proof.
  induction a as [|c a IH]; [reflexivity|]. exact IH.
Qed.

(** After the inline-code substitution the text is settled: a backtick
    followed by ordinary text and, later, by another backtick would have
    been the start of a match. *)
Lemma replace_code_settled_upto n : forall s,
  length s <= n -> settled (replace_from re_code tmpl_code 0 s).
Proof.
  induction n as [|n IH]; intros [|c s] Hn; try apply settled_nil.
  - simpl in Hn. lia.
  - cbn [length] in Hn. assert (Hs : length s <= n) by lia.
    rewrite replace_from_cons.
    destruct (N.eq_dec c backtick) as [->|Hc].
    2:{ unfold re_code at 1. rewrite exec_first_char.
        - apply settled_cons_other; auto.
        - intros [= ->]. now elim Hc. }
    destruct s as [|c' s].
    { apply settled_no_backtick. tauto. }
    destruct (N.eq_dec c' backtick) as [->|Hc'].
    { rewrite exec_code_double. apply settled_cons_backtick; auto.
      intros c. apply replace_code_head. }
    destruct (split_backtick s) as [Hno|(run & rest & -> & Hrun)].
    + rewrite exec_code_unclosed by assumption.
      assert (Hall : ~ In backtick (c' :: s))
        by (intros [H|H]; [now elim Hc' | tauto]).
      pose proof (@replace_absent_char backtick
                    (Grp 1 (Plus not_backtick) ;; Chr backtick)%re
                    tmpl_code _ Hall) as E.
      unfold replace in E. fold re_code in E. rewrite E.
      now apply settled_no_backtick.
    + rewrite exec_code_match by assumption.
      rewrite expand_code, replace_from_skip
        by (cbn [length]; rewrite length_app; cbn [length]; lia).
      pose proof (skipn_past (c' :: run) rest backtick) as E.
      cbn [app length] in E. rewrite E.
      rewrite <- !app_assoc.
      apply settled_prefix.
      * intros H. vm_compute in H. intuition discriminate.
      * apply settled_prefix.
        -- intros [H|H]; [now elim Hc' | tauto].
        -- apply settled_prefix.
           ++ intros H. vm_compute in H. intuition discriminate.
           ++ apply IH. cbn [length] in Hs. rewrite length_app in Hs.
              cbn [length] in Hs. lia.
Qed.

Lemma replace_code_settled s : settled (replace re_code tmpl_code s).
Proof. apply (replace_code_settled_upto (n := length s)). lia. Qed.

(** *** The fenced-code substitution *)

Lemma word_ordinary c :
  word c = true -> c <> backtick /\ c <> less_than.
Proof.
  intros H. split; intros ->; vm_compute in H; discriminate.
Qed.

(** What [re_fence] needs after the language: a newline and, later, a
    backtick. *)
Lemma fence_tail_inv s caps k res :
  m (Chr newline ;; Grp 2 (LazyStar any) ;;
     Chr backtick ;; Chr backtick ;; Chr backtick)%re s caps k = Some res ->
  exists a b, s = newline :: a ++ backtick :: b.
Proof.
  rewrite m_Seq. intros H. apply m_Chr_inv in H.
  destruct H as (s1 & -> & H). cbv beta in H. rewrite m_Seq in H.
  apply m_suffix in H. destruct H as (a & s2 & caps2 & -> & H).
  rewrite m_Seq in H. apply m_Chr_inv in H. destruct H as (b & -> & _).
  now exists a, b.
Qed.

Lemma exec_fence_inv w x :
  exec re_fence w = Some x ->
  exists c w', w = backtick :: backtick :: backtick :: c :: w'
               /\ (word c = true \/ c = newline) /\ In backtick w'.
Proof.
  unfold exec.
  destruct (m re_fence w [] (fun s' caps => Some (s', caps)))
    as [res|] eqn:H; [|discriminate].
  intros _. unfold re_fence in H.
  rewrite m_Seq in H. apply m_Chr_inv in H. destruct H as (w1 & -> & H).
  cbv beta in H.
  rewrite m_Seq in H. apply m_Chr_inv in H. destruct H as (w2 & -> & H).
  cbv beta in H.
  rewrite m_Seq in H. apply m_Chr_inv in H. destruct H as (w3 & -> & H).
  cbv beta in H.
  rewrite m_Seq in H. apply m_Opt_inv in H. destruct H as [H|H].
  - rewrite m_Grp_Plus in H. apply greedy_plus_inv in H.
    destruct H as (c & pre & s' & -> & Hc & H). cbv beta in H.
    apply fence_tail_inv in H. destruct H as (a & b & ->).
    exists c, (pre ++ newline :: a ++ backtick :: b).
    repeat split; [now left|].
    apply in_or_app. right. right. apply in_or_app. right. now left.
  - apply fence_tail_inv in H. destruct H as (a & b & ->).
    exists newline, (a ++ backtick :: b).
    repeat split; [now right|]. apply in_or_app. right. now left.
Qed.

Lemma fence_fails_on_settled t :
  settled t -> forall u w, t = u ++ w -> exec re_fence w = None.
Proof.
  intros Ht u w ->. destruct (exec re_fence w) as [x|] eqn:E; [|reflexivity].
  apply exec_fence_inv in E. destruct E as (c & w' & -> & Hc & Hw).
  exfalso.
  apply (Ht (u ++ [backtick; backtick]) c w'); [| | |assumption].
  - now rewrite <- app_assoc.
  - destruct Hc as [Hc| ->]; [now apply word_ordinary | discriminate].
  - destruct Hc as [Hc| ->]; [now apply word_ordinary | discriminate].
Qed.

(** The fenced-code substitution comes after the inline-code substitution,
    which leaves it nothing to match. *)
Lemma replace_fence_after_code content :
  replace re_fence tmpl_fence (replace re_code tmpl_code content) =
  replace re_code tmpl_code content.
Proof.
  apply replace_no_match.
  apply fence_fails_on_settled, replace_code_settled.
Qed.

(** ** The markup transform *)

(** C8: on a text with none of the markup tokens (no asterisk and no
    backtick), formatMessage returns the text with its newlines replaced by
    line breaks and no other change; applying it once more to the result
    changes nothing. *)
Theorem formatMessage_plain_text text :
  plain text ->
  formatMessage text = nl2br text
  /\ formatMessage (formatMessage text) = formatMessage text.
Proof.
  intros Hp. pose proof (formatMessage_plain Hp) as E. split; [exact E|].
  rewrite E, (formatMessage_plain (plain_nl2br Hp)).
  apply nl2br_id, nl2br_no_newline.
Qed.

Lemma formatMessage_plain_text_witness :
  plain (lit "one" ++ [newline] ++ lit "two")
  /\ (formatMessage (lit "one" ++ [newline] ++ lit "two")
       = nl2br (lit "one" ++ [newline] ++ lit "two")
      /\ formatMessage (formatMessage (lit "one" ++ [newline] ++ lit "two"))
         = formatMessage (lit "one" ++ [newline] ++ lit "two")).
Proof.
  assert (Hp : plain (lit "one" ++ [newline] ++ lit "two"))
    by (split; vm_compute; intuition discriminate).
  split; [exact Hp | exact (formatMessage_plain_text Hp)].
Defined.

Example formatMessage_two_lines :
  formatMessage (lit "one" ++ [newline] ++ lit "two") = lit "one<br>two".
Proof. reflexivity. Qed.

(** C10: formatMessage at the fenced block [```js], [**x**], [```]. The
    pattern of line 169 is written to turn it into a pre/code element, whose
    body the earlier substitutions would have transformed; the code yields
    two backticks, an inline code element and two backticks instead, with no
    pre element in the result. The inline-code substitution of line 168 has
    consumed the backticks of the fence, and it does so for every message:
    after it the fenced-code substitution changes nothing. *)
Lemma fence_example_has_no_pre :
  (formatMessage Demo.fence_example
   = lit "``<code>js<br><strong>x</strong><br></code>``"
   /\ includes (formatMessage Demo.fence_example) (lit "<pre") = false)
  /\ (forall content,
         replace re_fence tmpl_fence (replace re_code tmpl_code content)
         = replace re_code tmpl_code content).
Proof.
  split; [split; reflexivity | exact replace_fence_after_code].
Qed.

(** What the code does keep of C10: the bold, italic and inline-code
    substitutions come before the fenced-code substitution, so for some
    fenced block whose body holds markup tokens the body is transformed in
    the result (it holds [<strong>x</strong>]) rather than kept as it is,
    although the fenced-code substitution alone would have kept it. *)
Theorem fenced_body_is_transformed :
  exists lang body,
    includes body (lit "**x**") = true
    /\ includes (replace re_fence tmpl_fence (fenced lang body)) body = true
    /\ formatMessage (fenced lang body)
       = replace re_newline tmpl_br
           (replace re_fence tmpl_fence
              (replace re_code tmpl_code
                 (replace re_italic tmpl_italic
                    (replace re_bold tmpl_bold (fenced lang body)))))
    /\ includes (formatMessage (fenced lang body)) (lit "<strong>x</strong>")
       = true
    /\ includes (formatMessage (fenced lang body)) (lit "**x**") = false.
Proof.
  exists (lit "js"), (lit "**x**" ++ [newline]).
  repeat split; reflexivity.
Qed.

(** The fenced-code substitution of formatMessage never applies: whatever
    the message, the result is that of the bold, italic, inline-code and
    newline substitutions. *)
Theorem formatMessage_without_fence content :
  formatMessage content =
  replace re_newline tmpl_br
    (replace re_code tmpl_code
       (replace re_italic tmpl_italic (replace re_bold tmpl_bold content))).
Proof.
  unfold formatMessage. now rewrite replace_fence_after_code.
Qed.

(** ** The conversation *)

Section Conversation.

Variable number : Type.
Variable number_truthy : number -> bool.
Variables default_temperature default_maxTokens : number.
Variable AIProvider : Type.
Variable estimateTokens : jsstring -> N.
Variable calculateTotalTokens : list Message -> N.
Variable chat : ChatRequest number AIProvider -> AdapterRun.

Local Abbreviation Component := (Component number AIProvider).
Local Abbreviation sendMessage :=
  (sendMessage number_truthy default_temperature default_maxTokens
               estimateTokens calculateTotalTokens chat).
Local Abbreviation call_adapter :=
  (call_adapter number_truthy default_temperature default_maxTokens
                estimateTokens calculateTotalTokens chat).
Local Abbreviation request :=
  (request number_truthy default_temperature default_maxTokens).
Local Abbreviation begin_turn := (begin_turn estimateTokens calculateTotalTokens).
Local Abbreviation deliver := (deliver estimateTokens calculateTotalTokens).
Local Abbreviation callback := (callback estimateTokens calculateTotalTokens).
Local Abbreviation onComplete :=
  (onComplete estimateTokens calculateTotalTokens).
Local Abbreviation clearChat := (clearChat estimateTokens calculateTotalTokens).

Implicit Types (c : Component) (cbs : list Callback).

Lemma truthy_trim s : s <> [] -> truthy s = true.
Proof. now destruct s. Qed.

Lemma send_accepted c :
  trim (currentInput c) <> [] -> isLoading c = false ->
  send_refused c = false.
Proof.
  intros Hd Hl. unfold send_refused. now rewrite (truthy_trim Hd), Hl.
Qed.

Lemma sendMessage_accepted c :
  trim (currentInput c) <> [] -> isLoading c = false -> configured c ->
  sendMessage c = call_adapter (begin_turn c).
Proof.
  intros Hd Hl [Hk Hm]. unfold Sidebar.sendMessage.
  rewrite send_accepted by assumption. now rewrite Hk, Hm.
Qed.

Lemma deliver_app cbs1 cbs2 c :
  deliver (cbs1 ++ cbs2) c = deliver cbs2 (deliver cbs1 c).
Proof. apply fold_left_app. Qed.

(** Chunks only grow the streaming buffer (and scroll the view). *)
Lemma deliver_chunks chunks : forall c,
  messages (deliver (map OnChunk chunks) c) = messages c
  /\ isLoading (deliver (map OnChunk chunks) c) = isLoading c
  /\ currentInput (deliver (map OnChunk chunks) c) = currentInput c
  /\ settings (deliver (map OnChunk chunks) c) = settings c
  /\ streamingMessage (deliver (map OnChunk chunks) c)
     = streamingMessage c ++ concat chunks.
Proof.
  induction chunks as [|chunk chunks IH]; intros c.
  - cbn. now rewrite app_nil_r.
  - destruct (IH (onChunk chunk c)) as (Hm & Hl & Hi & Hs & Hb).
    change (deliver (map OnChunk (chunk :: chunks)) c)
      with (deliver (map OnChunk chunks) (onChunk chunk c)).
    rewrite Hm, Hl, Hi, Hs, Hb. cbn. now rewrite <- app_assoc.
Qed.

(** No hook calls the adapter or sets the loading flag. *)
Lemma deliver_trace cbs : forall c,
  exists rest,
    trace (deliver cbs c) = trace c ++ rest
    /\ forallb (fun e => negb (is_call e)) rest = true.
Proof.
  induction cbs as [|cb cbs IH]; intros c.
  - exists []. cbn. now rewrite app_nil_r.
  - destruct (IH (callback c cb)) as (rest & Ht & Hr).
    change (deliver (cb :: cbs) c) with (deliver cbs (callback c cb)).
    rewrite Ht. destruct cb; cbn; rewrite <- ?app_assoc;
      eexists; (split; [reflexivity|]); cbn; exact Hr.
Qed.

Lemma deliver_keeps_idle cbs : forall c,
  isLoading c = false -> isLoading (deliver cbs c) = false.
Proof.
  induction cbs as [|cb cbs IH]; intros c Hl; [exact Hl|].
  change (deliver (cb :: cbs) c) with (deliver cbs (callback c cb)).
  apply IH. now destruct cb.
Qed.

(** C1: whatever the state, after the adapter has invoked onChunk any number
    of times and then onComplete(full), the history is the former history
    followed by the new assistant message with content full, the streaming
    buffer is empty and isLoading is false. *)
Theorem complete_commits_reply c chunks full :
  messages (deliver (map OnChunk chunks ++ [OnComplete full]) c)
  = messages c ++ [{| role := assistant; content := full |}]
  /\ streamingMessage (deliver (map OnChunk chunks ++ [OnComplete full]) c)
     = []
  /\ isLoading (deliver (map OnChunk chunks ++ [OnComplete full]) c) = false.
Proof.
  rewrite deliver_app.
  destruct (deliver_chunks chunks c) as (Hm & _).
  cbn. now rewrite Hm.
Qed.

(** C2: while isLoading is true, and also when the draft is empty after
    trimming, sendMessage changes nothing at all: the component, the trace
    of its effects included, is the same, so no adapter call is made. *)
Theorem sendMessage_noop c :
  isLoading c = true \/ trim (currentInput c) = [] ->
  sendMessage c = c.
Proof.
  intros H. unfold Sidebar.sendMessage, send_refused.
  destruct H as [H|H]; rewrite H.
  - now rewrite orb_true_r.
  - reflexivity.
Qed.

(** C3: with a draft that is not empty after trimming and no turn in flight,
    a missing API key or model makes sendMessage push one error notification
    and nothing else: no adapter call, and history, draft, streaming buffer
    and isLoading are unchanged. *)
Theorem sendMessage_missing_configuration c :
  trim (currentInput c) <> [] -> isLoading c = false ->
  truthy_opt (aiApiKey (settings c)) = false
  \/ truthy_opt (aiModel (settings c)) = false ->
  (exists text,
      (text = msg_no_api_key \/ text = msg_no_model)
      /\ trace (sendMessage c) = trace c ++ [PushErrMsg text])
  /\ messages (sendMessage c) = messages c
  /\ currentInput (sendMessage c) = currentInput c
  /\ streamingMessage (sendMessage c) = streamingMessage c
  /\ isLoading (sendMessage c) = isLoading c.
Proof.
  intros Hd Hl H. unfold Sidebar.sendMessage.
  rewrite send_accepted by assumption.
  destruct (truthy_opt (aiApiKey (settings c))) eqn:Hk; cbn [negb].
  - destruct H as [H|H]; [discriminate|]. rewrite H. cbn [negb].
    split; [exists msg_no_model; split; [now right | reflexivity]|].
    repeat split.
  - split; [exists msg_no_api_key; split; [now left | reflexivity]|].
    repeat split.
Qed.

(** C4: with a draft that is not empty after trimming, no turn in flight and
    key and model configured, sendMessage appends one user message to the
    history, clears the draft and the streaming buffer, sets isLoading, and
    calls the adapter once, in that state, with the system prompt (when
    there is one) followed by the history without its system entries. *)
Theorem sendMessage_starts_turn c :
  trim (currentInput c) <> [] -> isLoading c = false -> configured c ->
  messages (begin_turn c)
  = messages c ++ [{| role := user; content := trim (currentInput c) |}]
  /\ currentInput (begin_turn c) = []
  /\ isLoading (begin_turn c) = true
  /\ streamingMessage (begin_turn c) = []
  /\ chat_messages (options (request (begin_turn c)))
     = match system_prompt (settings c) with
       | Some p => [system_message p]
       | None => []
       end
       ++ filter not_system (messages c)
       ++ [{| role := user; content := trim (currentInput c) |}]
  /\ stream (options (request (begin_turn c))) = true
  /\ sendMessage c = call_adapter (begin_turn c)
  /\ exists rest,
      trace (sendMessage c)
      = trace c ++ [ScrollToBottom; ChatCall (request (begin_turn c))] ++ rest
      /\ forallb (fun e => negb (is_call e)) rest = true.
Proof.
  intros Hd Hl Hc. repeat split.
  - change (chat_messages (options (request (begin_turn c))))
      with (messagesToSend (begin_turn c)).
    unfold messagesToSend.
    change (settings (begin_turn c)) with (settings c).
    change (messages (begin_turn c))
      with (messages c
              ++ [{| role := user; content := trim (currentInput c) |}]).
    rewrite filter_app.
    now destruct (system_prompt (settings c)).
  - now apply sendMessage_accepted.
  - rewrite sendMessage_accepted by assumption. unfold Sidebar.call_adapter.
    destruct (deliver_trace (calls (chat (request (begin_turn c))))
                (emit (ChatCall (request (begin_turn c))) (begin_turn c)))
      as (rest & Ht & Hr).
    destruct (thrown (chat (request (begin_turn c)))) as [e|].
    + exists (rest ++ [ConsoleError log_send_error e]). split.
      * cbn. cbn in Ht. rewrite Ht. now rewrite <- !app_assoc.
      * rewrite forallb_app, Hr. reflexivity.
    + exists rest. split; [|exact Hr].
      rewrite Ht. cbn. now rewrite <- !app_assoc.
Qed.

(** C5: when the adapter invokes onError(err), the error is pushed as an
    error notification, isLoading becomes false, the streaming buffer is
    emptied and the history is left as it is; so a turn that ends in
    onError keeps the user message that was appended at send time. *)
Theorem onError_aborts_turn c chunks err :
  (messages (onError err c) = messages c
   /\ isLoading (onError err c) = false
   /\ streamingMessage (onError err c) = []
   /\ trace (onError err c)
      = trace c ++ [PushErrMsg (msg_request_failed ++ err)])
  /\ (messages (deliver (map OnChunk chunks ++ [OnError err]) (begin_turn c))
      = messages c ++ [{| role := user; content := trim (currentInput c) |}]
      /\ isLoading (deliver (map OnChunk chunks ++ [OnError err])
                            (begin_turn c)) = false
      /\ streamingMessage (deliver (map OnChunk chunks ++ [OnError err])
                                   (begin_turn c)) = []
      /\ exists tr,
          trace (deliver (map OnChunk chunks ++ [OnError err]) (begin_turn c))
          = tr ++ [PushErrMsg (msg_request_failed ++ err)]).
Proof.
  split; [repeat split|].
  rewrite deliver_app.
  destruct (deliver_chunks chunks (begin_turn c)) as (Hm & _).
  cbn. rewrite Hm. repeat split. eexists. reflexivity.
Qed.

(** C6: clearChat leaves a history that is empty when settings hold no
    system prompt (none, or the empty string) and that is the one system
    message of the prompt otherwise; the streaming buffer is empty. *)
Theorem clearChat_resets c :
  messages (clearChat c)
  = match aiSystemPrompt (settings c) with
    | Some (ch :: prompt) => [system_message (ch :: prompt)]
    | _ => []
    end
  /\ streamingMessage (clearChat c) = [].
Proof.
  split; [|reflexivity]. cbn. unfold system_prompt.
  now destruct (aiSystemPrompt (settings c)) as [[|ch prompt]|].
Qed.

Lemma has_conversation_filter history :
  has_conversation history =
  match filter not_system history with
  | [] => false
  | _ :: _ => true
  end.
Proof.
  unfold has_conversation.
  induction history as [|msg rest IH]; [reflexivity|].
  cbn [existsb filter]. now destruct (not_system msg).
Qed.




(** C9: when the call of the adapter throws, the exception is caught and
    logged, isLoading is reset to false and the streaming buffer is
    emptied; and sendMessage, started at rest, never ends an error path (a
    missing key or model, an exception, a turn closed by onError) with
    isLoading true. *)
Theorem adapter_exception_is_caught c :
  isLoading c = false ->
  (forall e,
      trim (currentInput c) <> [] -> configured c ->
      thrown (chat (request (begin_turn c))) = Some e ->
      isLoading (sendMessage c) = false
      /\ streamingMessage (sendMessage c) = []
      /\ exists tr, trace (sendMessage c)
                    = tr ++ [ConsoleError log_send_error e])
  /\ (truthy_opt (aiApiKey (settings c)) = false
      \/ truthy_opt (aiModel (settings c)) = false
      \/ (exists e, thrown (chat (request (begin_turn c))) = Some e)
      \/ (exists pre err,
             calls (chat (request (begin_turn c))) = pre ++ [OnError err]) ->
      isLoading (sendMessage c) = false).
Proof.
  intros Hl. split.
  - intros e Hd Hc He. rewrite sendMessage_accepted by assumption.
    unfold Sidebar.call_adapter. rewrite He. repeat split.
    eexists. reflexivity.
  - intros H. unfold Sidebar.sendMessage.
    destruct (send_refused c); [exact Hl|].
    destruct (truthy_opt (aiApiKey (settings c))); [|exact Hl].
    destruct (truthy_opt (aiModel (settings c))); [|exact Hl].
    cbn [negb]. unfold Sidebar.call_adapter.
    destruct (thrown (chat (request (begin_turn c)))) as [e|];
      [reflexivity|].
    destruct H as [H|[H|[[e H]|(pre & err & H)]]]; try discriminate.
    rewrite H, deliver_app. reflexivity.
Qed.

End Conversation.

(** ** The theorems at work on a concrete component *)

Lemma sendMessage_noop_witness :
  isLoading Demo.in_flight = true
  /\ Demo.send Demo.answering_four Demo.in_flight = Demo.in_flight.
Proof.
  split; [reflexivity|].
  apply sendMessage_noop. left. reflexivity.
Defined.

Lemma sendMessage_missing_configuration_witness :
  (trim (currentInput Demo.unconfigured) <> []
   /\ isLoading Demo.unconfigured = false
   /\ truthy_opt (aiApiKey (settings Demo.unconfigured)) = false)
  /\ trace (Demo.send Demo.answering_four Demo.unconfigured)
     = [PushErrMsg msg_no_api_key]
  /\ messages (Demo.send Demo.answering_four Demo.unconfigured) = []
  /\ isLoading (Demo.send Demo.answering_four Demo.unconfigured) = false.
Proof.
  assert (Hd : trim (currentInput Demo.unconfigured) <> [])
    by (vm_compute; discriminate).
  assert (Hl : isLoading Demo.unconfigured = false) by reflexivity.
  assert (Hk : truthy_opt (aiApiKey (settings Demo.unconfigured)) = false)
    by reflexivity.
  split; [now repeat split|].
  destruct (sendMessage_missing_configuration
              Demo.number_truthy Demo.default_temperature
              Demo.default_maxTokens Demo.estimateTokens
              Demo.calculateTotalTokens Demo.answering_four
              Demo.unconfigured Hd Hl (or_introl Hk))
    as ((text & _ & Ht) & Hm & _ & _ & Hi).
  split; [reflexivity | split; [exact Hm | exact Hi]].
Defined.

Lemma sendMessage_starts_turn_witness :
  (trim (currentInput Demo.ready) <> []
   /\ isLoading Demo.ready = false
   /\ configured Demo.ready)
  /\ messages (Demo.send Demo.pending Demo.ready)
     = [{| role := user; content := lit "hello" |}]
  /\ isLoading (Demo.send Demo.pending Demo.ready) = true.
Proof.
  assert (Hd : trim (currentInput Demo.ready) <> [])
    by (vm_compute; discriminate).
  assert (Hl : isLoading Demo.ready = false) by reflexivity.
  assert (Hc : configured Demo.ready) by (split; reflexivity).
  split; [now repeat split|].
  destruct (sendMessage_starts_turn
              Demo.number_truthy Demo.default_temperature
              Demo.default_maxTokens Demo.estimateTokens
              Demo.calculateTotalTokens Demo.pending Hd Hl Hc)
    as (_ & _ & _ & _ & _ & _ & Hs & _).
  unfold Demo.send. rewrite Hs. split; reflexivity.
Defined.

Lemma adapter_exception_is_caught_witness :
  isLoading Demo.ready = false
  /\ isLoading (Demo.send Demo.throwing Demo.ready) = false
  /\ streamingMessage (Demo.send Demo.throwing Demo.ready) = [].
Proof.
  assert (Hd : trim (currentInput Demo.ready) <> [])
    by (vm_compute; discriminate).
  assert (Hl : isLoading Demo.ready = false) by reflexivity.
  assert (Hc : configured Demo.ready) by (split; reflexivity).
  split; [exact Hl|].
  destruct (adapter_exception_is_caught
              Demo.number_truthy Demo.default_temperature
              Demo.default_maxTokens Demo.estimateTokens
              Demo.calculateTotalTokens Demo.throwing Demo.ready Hl)
    as (H & _).
  destruct (H (lit "TypeError: fetch failed") Hd Hc eq_refl)
    as (Hi & Hs & _).
  split; [exact Hi | exact Hs].
Defined.

(** The scenarios of the specification. *)

Example scenario_two_plus_two :
  let c := Demo.send Demo.answering_four
             (Demo.mounted (lit "sk-demo") (Some (lit "Be brief."))
                (lit "2+2?")) in
  messages c = [ {| role := system; content := lit "Be brief." |};
                 {| role := user; content := lit "2+2?" |};
                 {| role := assistant; content := lit "4" |} ]
  /\ isLoading c = false /\ streamingMessage c = [].
Proof. repeat split. Qed.

Example scenario_missing_key :
  Demo.send Demo.answering_four Demo.unconfigured
  = pushErrMsg msg_no_api_key Demo.unconfigured.
Proof. reflexivity. Qed.

Example scenario_provider_error :
  messages (Demo.send Demo.failing Demo.ready)
  = [{| role := user; content := lit "hello" |}]
  /\ isLoading (Demo.send Demo.failing Demo.ready) = false
  /\ streamingMessage (Demo.send Demo.failing Demo.ready) = [].
Proof. repeat split. Qed.

Example scenario_export :
  markdown [ {| role := system; content := lit "Be brief." |};
             {| role := user; content := lit "hi" |};
             {| role := assistant; content := lit "yo" |} ]
  = header_user ++ [newline; newline] ++ lit "hi" ++ [newline]
      ++ [newline] ++ lit "---" ++ [newline; newline]
      ++ header_assistant ++ [newline; newline] ++ lit "yo" ++ [newline].
Proof. reflexivity. Qed.

(** ** More on the markup transform *)

Lemma replace_prefix c r tmpl a b :
  ~ In c a ->
  replace (Chr c ;; r)%re tmpl (a ++ b) = a ++ replace (Chr c ;; r)%re tmpl b.
Proof.
  unfold replace. induction a as [|x a IH]; intros Ha; [reflexivity|].
  cbn [app]. rewrite replace_from_cons, exec_first_char.
  - f_equal. apply IH. intros H. apply Ha. now right.
  - intros [= ->]. apply Ha. now left.
Qed.

Lemma nl2br_app a b : nl2br (a ++ b) = nl2br a ++ nl2br b.
Proof.
  induction a as [|c a IH]; [reflexivity|].
  cbn [app nl2br]. now rewrite IH, app_assoc.
Qed.

Lemma plain_app a b : plain a -> plain b -> plain (a ++ b).
Proof.
  intros [Ha1 Ha2] [Hb1 Hb2].
  split; intros H; apply in_app_or in H; tauto.
Qed.

Lemma one_line_no_newline t : one_line t -> ~ In newline t.
Proof. intros Ht H. specialize (Ht _ H). discriminate. Qed.

Lemma firstn_consumed (a rest : jsstring) :
  firstn (length (a ++ rest) - length rest) (a ++ rest) = a.
Proof.
  rewrite length_app.
  replace (length a + length rest - length rest) with (length a + 0) by lia.
  rewrite firstn_app_2. cbn [firstn]. apply app_nil_r.
Qed.

Lemma skipn_consumed (a rest : jsstring) : skipn (length a) (a ++ rest) = rest.
Proof. induction a as [|c a IH]; [reflexivity | exact IH]. Qed.

Lemma lazy_star_now p s (k : jsstring -> option result) res :
  k s = Some res -> lazy_star p s k = Some res.
Proof. intros H. destruct s; cbn [lazy_star]; now rewrite H. Qed.

(** A lazy star runs through a text that its class accepts and at which
    its continuation cannot go on. *)
Lemma lazy_star_through g p t rest (k : jsstring -> option result) :
  gated_by g k -> ~ In g t -> (forall c, In c t -> p c = true) ->
  lazy_star p (t ++ rest) k = lazy_star p rest k.
Proof.
  intros Hk. induction t as [|c t IH]; intros Hg Hp; [reflexivity|].
  cbn [app lazy_star].
  destruct (k (c :: t ++ rest)) eqn:E.
  - assert (H : hd_error (c :: t ++ rest) = Some g)
      by (apply Hk; rewrite E; discriminate).
    injection H as ->. elim Hg. now left.
  - rewrite (Hp c) by now left. apply IH.
    + intros H. apply Hg. now right.
    + intros x Hx. apply Hp. now right.
Qed.

Lemma one_line_dot t : one_line t -> forall c, In c t -> dot c = true.
Proof. intros Ht c Hc. unfold dot. now rewrite (Ht c Hc). Qed.

(** The closing stars of [re_bold], as a continuation. *)
Lemma bold_close_gated (s : jsstring) :
  gated_by star
    (fun s' =>
       m (Chr star ;; Chr star)%re s'
         [(1, firstn (length s - length s') s)]
         (fun s'' caps => Some (s'', caps))).
Proof.
  intros [|c t]; cbn [m]; [congruence|].
  destruct (N.eqb_spec c star) as [->|_]; [reflexivity | congruence].
Qed.

Lemma italic_close_gated (s : jsstring) :
  gated_by star
    (fun s' =>
       m (Chr star) s'
         [(1, firstn (length s - length s') s)]
         (fun s'' caps => Some (s'', caps))).
Proof.
  intros [|c t]; cbn [m]; [congruence|].
  destruct (N.eqb_spec c star) as [->|_]; [reflexivity | congruence].
Qed.

Lemma exec_bold_span t b :
  ~ In star t -> one_line t ->
  exec re_bold (star :: star :: t ++ star :: star :: b)
  = Some (S (S (S (S (length t)))), [(1, t)]).
Proof.
  intros Hs Hl. unfold exec, re_bold.
  change (m (Chr star;; Chr star;; Grp 1 (LazyStar dot);; Chr star;; Chr star)%re
            (star :: star :: t ++ star :: star :: b) []
            (fun s' caps => Some (s', caps)))
    with (lazy_star dot (t ++ star :: star :: b)
            (fun s' =>
               m (Chr star ;; Chr star)%re s'
                 [(1, firstn (length (t ++ star :: star :: b) - length s')
                        (t ++ star :: star :: b))]
                 (fun s'' caps => Some (s'', caps)))).
  rewrite lazy_star_through with (g := star);
    [| apply bold_close_gated | exact Hs | now apply one_line_dot].
  erewrite lazy_star_now by reflexivity.
  rewrite firstn_consumed. do 2 f_equal.
  cbn [length]. rewrite length_app. cbn [length]. lia.
Qed.

Lemma exec_italic_span t b :
  ~ In star t -> one_line t ->
  exec re_italic (star :: t ++ star :: b)
  = Some (S (S (length t)), [(1, t)]).
Proof.
  intros Hs Hl. unfold exec, re_italic.
  change (m (Chr star;; Grp 1 (LazyStar dot);; Chr star)%re
            (star :: t ++ star :: b) []
            (fun s' caps => Some (s', caps)))
    with (lazy_star dot (t ++ star :: b)
            (fun s' =>
               m (Chr star) s'
                 [(1, firstn (length (t ++ star :: b) - length s')
                        (t ++ star :: b))]
                 (fun s'' caps => Some (s'', caps)))).
  rewrite lazy_star_through with (g := star);
    [| apply italic_close_gated | exact Hs | now apply one_line_dot].
  erewrite lazy_star_now by reflexivity.
  rewrite firstn_consumed. do 2 f_equal.
  cbn [length]. rewrite length_app. cbn [length]. lia.
Qed.

Lemma replace_bold_span t b :
  ~ In star t -> one_line t ->
  replace re_bold tmpl_bold (star :: star :: t ++ star :: star :: b)
  = lit "<strong>" ++ t ++ lit "</strong>" ++ replace re_bold tmpl_bold b.
Proof.
  intros Hs Hl. unfold replace.
  rewrite replace_from_cons, exec_bold_span by assumption.
  change (expand (ngroups re_bold) tmpl_bold [(1, t)])
    with (lit "<strong>" ++ t ++ lit "</strong>").
  rewrite replace_from_skip
    by (cbn [length]; rewrite length_app; cbn [length]; lia).
  replace (star :: t ++ star :: star :: b)
    with ((star :: t ++ [star; star]) ++ b)
    by (cbn [app]; now rewrite <- app_assoc).
  replace (S (S (S (length t)))) with (length (star :: t ++ [star; star]))
    by (cbn [length]; rewrite length_app; cbn [length]; lia).
  rewrite skipn_consumed. now rewrite <- !app_assoc.
Qed.

Lemma replace_italic_span t b :
  ~ In star t -> one_line t ->
  replace re_italic tmpl_italic (star :: t ++ star :: b)
  = lit "<em>" ++ t ++ lit "</em>" ++ replace re_italic tmpl_italic b.
Proof.
  intros Hs Hl. unfold replace.
  rewrite replace_from_cons, exec_italic_span by assumption.
  change (expand (ngroups re_italic) tmpl_italic [(1, t)])
    with (lit "<em>" ++ t ++ lit "</em>").
  rewrite replace_from_skip by (rewrite length_app; cbn [length]; lia).
  rewrite skipn_past. now rewrite <- !app_assoc.
Qed.

Lemma replace_code_span t b :
  t <> [] -> ~ In backtick t ->
  replace re_code tmpl_code (backtick :: t ++ backtick :: b)
  = lit "<code>" ++ t ++ lit "</code>" ++ replace re_code tmpl_code b.
Proof.
  intros Hn Ht. destruct t as [|c run]; [now elim Hn|].
  assert (Hc : c <> backtick) by (intros ->; apply Ht; now left).
  assert (Hrun : ~ In backtick run) by (intros H; apply Ht; now right).
  unfold replace. cbn [app].
  rewrite replace_from_cons, exec_code_match, expand_code by assumption.
  rewrite replace_from_skip
    by (cbn [length]; rewrite length_app; cbn [length]; lia).
  pose proof (skipn_past (c :: run) b backtick) as E.
  cbn [app length] in E. rewrite E. now rewrite <- !app_assoc.
Qed.

Lemma exec_bold_single s :
  hd_error s <> Some star -> exec re_bold (star :: s) = None.
Proof.
  intros Hs. destruct s as [|x s]; [reflexivity|].
  unfold exec, re_bold. cbn [m].
  change (star =? star)%N with true. cbv iota.
  destruct (N.eqb_spec x star) as [->|_]; [now elim Hs | reflexivity].
Qed.

(** The bold substitution leaves a single pair of asterisks alone. *)
Lemma replace_bold_single t b :
  t <> [] -> ~ In star t -> hd_error b <> Some star ->
  replace re_bold tmpl_bold (star :: t ++ star :: b)
  = star :: t ++ star :: replace re_bold tmpl_bold b.
Proof.
  intros Hn Ht Hb. unfold replace.
  rewrite replace_from_cons, exec_bold_single.
  2:{ destruct t as [|x t]; [now elim Hn|]. intros [= ->]. apply Ht. now left. }
  f_equal.
  pose proof (@replace_prefix star
                (Chr star ;; Grp 1 (LazyStar dot) ;; Chr star ;; Chr star)%re
                tmpl_bold t (star :: b) Ht) as E.
  unfold replace in E. fold re_bold in E. rewrite E. f_equal.
  now rewrite replace_from_cons, exec_bold_single.
Qed.

Lemma after_italic_prefix P X :
  plain P ->
  replace re_newline tmpl_br
    (replace re_fence tmpl_fence (replace re_code tmpl_code (P ++ X)))
  = nl2br P
    ++ replace re_newline tmpl_br
         (replace re_fence tmpl_fence (replace re_code tmpl_code X)).
Proof.
  intros [_ Hb]. unfold re_code, re_fence.
  rewrite 2 (@replace_prefix backtick _ _ _ _ Hb).
  now rewrite !replace_newline_nl2br, nl2br_app.
Qed.

Lemma after_bold_prefix P X :
  plain P ->
  replace re_newline tmpl_br
    (replace re_fence tmpl_fence
       (replace re_code tmpl_code (replace re_italic tmpl_italic (P ++ X))))
  = nl2br P
    ++ replace re_newline tmpl_br
         (replace re_fence tmpl_fence
            (replace re_code tmpl_code (replace re_italic tmpl_italic X))).
Proof.
  intros HP. unfold re_italic at 1.
  rewrite (@replace_prefix star _ _ _ _ (proj1 HP)). fold re_italic.
  now apply after_italic_prefix.
Qed.

Lemma plain_tag (tag : jsstring) t :
  plain tag -> plain t -> forall close, plain close ->
  plain (tag ++ t ++ close).
Proof. intros. now repeat apply plain_app. Qed.

Lemma nl2br_tagged (tag close : jsstring) t :
  ~ In newline tag -> ~ In newline close ->
  nl2br (tag ++ t ++ close) = tag ++ nl2br t ++ close.
Proof.
  intros Ht Hc. now rewrite !nl2br_app, (@nl2br_id _ Ht), (@nl2br_id _ Hc).
Qed.


(** X3: plain text in front of a message is rendered on its own:
    formatMessage of a text without asterisk and backtick followed by
    anything is the text with its newlines as line breaks, followed by
    formatMessage of the rest. *)
Theorem formatMessage_plain_prefix a b :
  plain a -> formatMessage (a ++ b) = nl2br a ++ formatMessage b.
Proof.
  intros Ha. unfold formatMessage, re_bold at 1.
  rewrite (@replace_prefix star _ _ _ _ (proj1 Ha)). fold re_bold.
  now apply after_bold_prefix.
Qed.

(** X4: a bold span on one line is rendered as a strong element, whatever
    follows: after plain text, two asterisks, a text without asterisk,
    backtick and line terminator, and two asterisks become that text inside
    a strong element, and the rest of the message is rendered on its own. *)
Theorem formatMessage_bold_span a t b :
  plain a -> plain t -> one_line t ->
  formatMessage (a ++ [star; star] ++ t ++ [star; star] ++ b)
  = nl2br a ++ lit "<strong>" ++ t ++ lit "</strong>" ++ formatMessage b.
Proof.
  intros Ha Ht Hl. unfold formatMessage, re_bold at 1.
  rewrite (@replace_prefix star _ _ _ _ (proj1 Ha)). fold re_bold.
  cbn [app]. rewrite replace_bold_span by (assumption || apply Ht).
  replace (a ++ lit "<strong>" ++ t ++ lit "</strong>"
             ++ replace re_bold tmpl_bold b)
    with ((a ++ lit "<strong>" ++ t ++ lit "</strong>")
            ++ replace re_bold tmpl_bold b)
    by now rewrite <- !app_assoc.
  rewrite after_bold_prefix.
  - rewrite nl2br_app, nl2br_tagged, (@nl2br_id _ (one_line_no_newline Hl)).
    + now rewrite <- !app_assoc.
    + vm_compute. intuition discriminate.
    + vm_compute. intuition discriminate.
  - apply plain_app; [assumption|].
    apply plain_tag; try assumption;
      split; vm_compute; intuition discriminate.
Qed.

(** X5: an italic span on one line is rendered as an em element: after
    plain text, an asterisk, a text that is not empty and has no asterisk,
    backtick and line terminator, and an asterisk that no other asterisk
    follows become that text inside an em element, and the rest of the
    message is rendered on its own. *)
Theorem formatMessage_italic_span a t b :
  plain a -> t <> [] -> plain t -> one_line t -> hd_error b <> Some star ->
  formatMessage (a ++ [star] ++ t ++ [star] ++ b)
  = nl2br a ++ lit "<em>" ++ t ++ lit "</em>" ++ formatMessage b.
Proof.
  intros Ha Hn Ht Hl Hb. unfold formatMessage, re_bold at 1.
  rewrite (@replace_prefix star _ _ _ _ (proj1 Ha)). fold re_bold.
  cbn [app]. rewrite replace_bold_single by (assumption || apply Ht).
  unfold re_italic at 1.
  rewrite (@replace_prefix star _ _ _ _ (proj1 Ha)). fold re_italic.
  rewrite replace_italic_span by (assumption || apply Ht).
  replace (a ++ lit "<em>" ++ t ++ lit "</em>"
             ++ replace re_italic tmpl_italic (replace re_bold tmpl_bold b))
    with ((a ++ lit "<em>" ++ t ++ lit "</em>")
            ++ replace re_italic tmpl_italic (replace re_bold tmpl_bold b))
    by now rewrite <- !app_assoc.
  rewrite after_italic_prefix.
  - rewrite nl2br_app, nl2br_tagged, (@nl2br_id _ (one_line_no_newline Hl)).
    + now rewrite <- !app_assoc.
    + vm_compute. intuition discriminate.
    + vm_compute. intuition discriminate.
  - apply plain_app; [assumption|].
    apply plain_tag; try assumption;
      split; vm_compute; intuition discriminate.
Qed.

(** X6: an inline code span is rendered as a code element, whatever
    follows: after plain text, a backtick, a text that is not empty and has
    no asterisk and no backtick, and a backtick become that text, its
    newlines as line breaks, inside a code element, and the rest of the
    message is rendered on its own. *)
Theorem formatMessage_code_span a t b :
  plain a -> t <> [] -> plain t ->
  formatMessage (a ++ [backtick] ++ t ++ [backtick] ++ b)
  = nl2br a ++ lit "<code>" ++ nl2br t ++ lit "</code>" ++ formatMessage b.
Proof.
  intros Ha Hn Ht.
  assert (Hs : ~ In star (a ++ [backtick] ++ t ++ [backtick])).
  { intros H. apply in_app_or in H. destruct H as [H|H]; [exact (proj1 Ha H)|].
    destruct H as [H|H]; [discriminate|]. cbn [app] in H.
    apply in_app_or in H. destruct H as [H|H]; [exact (proj1 Ht H)|].
    destruct H as [H|[]]. discriminate. }
  unfold formatMessage. rewrite !replace_fence_after_code.
  replace (a ++ [backtick] ++ t ++ [backtick] ++ b)
    with ((a ++ [backtick] ++ t ++ [backtick]) ++ b)
    by now rewrite <- !app_assoc.
  unfold re_bold at 1. rewrite (@replace_prefix star _ _ _ _ Hs).
  fold re_bold. unfold re_italic at 1.
  rewrite (@replace_prefix star _ _ _ _ Hs). fold re_italic.
  replace ((a ++ [backtick] ++ t ++ [backtick])
             ++ replace re_italic tmpl_italic (replace re_bold tmpl_bold b))
    with (a ++ backtick :: t ++ backtick
            :: replace re_italic tmpl_italic (replace re_bold tmpl_bold b))
    by (repeat (rewrite <- app_assoc || (progress cbn [app])); reflexivity).
  unfold re_code at 1. rewrite (@replace_prefix backtick _ _ _ _ (proj2 Ha)).
  fold re_code. rewrite replace_code_span by (assumption || apply Ht).
  rewrite !replace_newline_nl2br, !nl2br_app.
  reflexivity.
Qed.

(** ** More on trim *)

Lemma trimStart_blank s :
  (forall ch, In ch s -> is_trimmed ch = true) -> trimStart s = [].
Proof.
  induction s as [|c s IH]; intros H; [reflexivity|].
  cbn [trimStart]. rewrite (H c) by now left.
  apply IH. intros ch Hch. apply H. now right.
Qed.

Lemma trim_blank s :
  (forall ch, In ch s -> is_trimmed ch = true) -> trim s = [].
Proof.
  intros H. unfold trim, trimEnd. now rewrite (trimStart_blank _ H).
Qed.

Lemma trimStart_head s ch :
  hd_error (trimStart s) = Some ch -> is_trimmed ch = false.
Proof.
  induction s as [|c s IH]; cbn [trimStart]; [discriminate|].
  destruct (is_trimmed c) eqn:E; [exact IH|].
  intros [= <-]. exact E.
Qed.

(** What trimStart drops is a prefix. *)
Lemma trimStart_suffix s : exists pre, s = pre ++ trimStart s.
Proof.
  induction s as [|c s [pre IH]]; [now exists []|].
  cbn [trimStart]. destruct (is_trimmed c).
  - exists (c :: pre). cbn [app]. now f_equal.
  - now exists [].
Qed.

(** What trimEnd keeps is a prefix. *)
Lemma trimEnd_prefix s : exists post, s = trimEnd s ++ post.
Proof.
  unfold trimEnd. destruct (trimStart_suffix (rev s)) as [pre H].
  exists (rev pre). rewrite <- rev_app_distr, <- H. now rewrite rev_involutive.
Qed.

Lemma trim_head s ch :
  hd_error (trim s) = Some ch -> is_trimmed ch = false.
Proof.
  unfold trim. destruct (trimEnd_prefix (trimStart s)) as [post H].
  intros Hh. apply (trimStart_head s). rewrite H.
  destruct (trimEnd (trimStart s)); [discriminate | exact Hh].
Qed.

Lemma trim_last s ch :
  hd_error (rev (trim s)) = Some ch -> is_trimmed ch = false.
Proof.
  unfold trim, trimEnd. rewrite rev_involutive. apply trimStart_head.
Qed.

(** ** The conversation, event by event *)

Section Lifecycle.

Variable number : Type.
Variable number_truthy : number -> bool.
Variables default_temperature default_maxTokens : number.
Variable AIProvider : Type.
Variable estimateTokens : jsstring -> N.
Variable calculateTotalTokens : list Message -> N.
Variable chat : ChatRequest number AIProvider -> AdapterRun.

Local Abbreviation Component := (Component number AIProvider).
Local Abbreviation Settings := (Settings number AIProvider).
Local Abbreviation sendMessage :=
  (sendMessage number_truthy default_temperature default_maxTokens
               estimateTokens calculateTotalTokens chat).
Local Abbreviation call_adapter :=
  (call_adapter number_truthy default_temperature default_maxTokens
                estimateTokens calculateTotalTokens chat).
Local Abbreviation send_start :=
  (send_start number_truthy default_temperature default_maxTokens
              estimateTokens calculateTotalTokens).
Local Abbreviation request :=
  (request number_truthy default_temperature default_maxTokens).
Local Abbreviation begin_turn := (begin_turn estimateTokens calculateTotalTokens).
Local Abbreviation deliver := (deliver estimateTokens calculateTotalTokens).
Local Abbreviation callback := (callback estimateTokens calculateTotalTokens).
Local Abbreviation onComplete :=
  (onComplete estimateTokens calculateTotalTokens).
Local Abbreviation onMount := (onMount estimateTokens calculateTotalTokens).
Local Abbreviation input := (input estimateTokens calculateTotalTokens).
Local Abbreviation clearChat := (clearChat estimateTokens calculateTotalTokens).
Local Abbreviation step :=
  (step number_truthy default_temperature default_maxTokens
        estimateTokens calculateTotalTokens).
Local Abbreviation life :=
  (life number_truthy default_temperature default_maxTokens
        estimateTokens calculateTotalTokens).
Local Abbreviation counted := (counted estimateTokens calculateTotalTokens).

Implicit Types (c : Component) (cbs : list Callback) (loaded : Settings)
         (events : list Event).

Lemma send_disabled_refused c : send_disabled c = send_refused c.
Proof. apply orb_comm. Qed.

Lemma deliver_step cbs : forall c,
  deliver cbs c = fold_left step (map Hook cbs) c.
Proof.
  induction cbs as [|cb cbs IH]; intros c; [reflexivity|]. apply IH.
Qed.

(** sendMessage is its part before the call of the adapter, followed by
    the events of that call. *)
Lemma sendMessage_events c :
  sendMessage c =
  if send_refused c
     || negb (truthy_opt (aiApiKey (settings c)))
     || negb (truthy_opt (aiModel (settings c)))
  then step c Send
  else fold_left step
         (Send :: events_of (chat (request (begin_turn c)))) c.
Proof.
  unfold Sidebar.sendMessage. cbn [fold_left Sidebar.step].
  unfold Sidebar.send_start.
  destruct (send_refused c); [reflexivity|].
  destruct (truthy_opt (aiApiKey (settings c))); [|reflexivity].
  destruct (truthy_opt (aiModel (settings c))); [|reflexivity].
  cbn [negb orb]. unfold Sidebar.call_adapter, events_of.
  rewrite fold_left_app, <- deliver_step.
  now destruct (thrown (chat (request (begin_turn c)))).
Qed.

(** The hooks only ever append assistant messages. *)
Lemma deliver_messages cbs : forall c,
  exists added,
    messages (deliver cbs c) = messages c ++ added
    /\ forallb not_system added = true.
Proof.
  induction cbs as [|cb cbs IH]; intros c.
  - exists []. now rewrite app_nil_r.
  - destruct (IH (callback c cb)) as (added & Hm & Ha).
    change (deliver (cb :: cbs) c) with (deliver cbs (callback c cb)).
    rewrite Hm. destruct cb as [chunk|full|err].
    + now exists added.
    + exists ({| role := assistant; content := full |} :: added).
      cbn. now rewrite <- app_assoc.
    + now exists added.
Qed.

Lemma sendMessage_trace_grows c :
  send_refused c = false ->
  exists e rest, trace (sendMessage c) = trace c ++ e :: rest.
Proof.
  intros Hr. unfold Sidebar.sendMessage. rewrite Hr.
  destruct (truthy_opt (aiApiKey (settings c))); cbn [negb];
    [|now exists (PushErrMsg msg_no_api_key), []].
  destruct (truthy_opt (aiModel (settings c))); cbn [negb];
    [|now exists (PushErrMsg msg_no_model), []].
  unfold Sidebar.call_adapter.
  destruct (deliver_trace estimateTokens calculateTotalTokens
              (calls (chat (request (begin_turn c))))
              (emit (ChatCall (request (begin_turn c))) (begin_turn c)))
    as (rest & Ht & _).
  destruct (thrown (chat (request (begin_turn c)))) as [err|].
  - exists ScrollToBottom. eexists. cbn. cbn in Ht. rewrite Ht.
    rewrite <- !app_assoc. reflexivity.
  - exists ScrollToBottom. eexists. rewrite Ht. cbn.
    rewrite <- !app_assoc. reflexivity.
Qed.

Lemma refused_noop c : send_refused c = true -> sendMessage c = c.
Proof. intros H. unfold Sidebar.sendMessage. now rewrite H. Qed.

(** X7: the send button is disabled exactly when sendMessage would change
    nothing: with the button enabled, sendMessage always has an effect (an
    error notification or a turn). *)
Theorem send_button_tells_noop c :
  send_disabled c = true <-> sendMessage c = c.
Proof.
  rewrite send_disabled_refused. split.
  - apply refused_noop.
  - intros H. destruct (send_refused c) eqn:Hr; [reflexivity|].
    destruct (sendMessage_trace_grows c Hr) as (e & rest & Ht).
    rewrite H in Ht. apply (f_equal (@length _)) in Ht.
    rewrite length_app in Ht. cbn [length] in Ht. lia.
Qed.

(** X8: a draft made of white space and line terminators only is never
    sent: sendMessage changes nothing and the send button is disabled. *)
Theorem blank_draft_is_refused c :
  (forall ch, In ch (currentInput c) -> is_trimmed ch = true) ->
  sendMessage c = c /\ send_disabled c = true.
Proof.
  intros H. assert (Hd : send_disabled c = true).
  { unfold send_disabled. rewrite (trim_blank _ H). apply orb_true_r. }
  split; [|exact Hd].
  apply refused_noop. now rewrite <- send_disabled_refused.
Qed.

Lemma filter_all (A : Type) (f : A -> bool) l :
  forallb f l = true -> filter f l = l.
Proof.
  induction l as [|x l IH]; [reflexivity|]. cbn [forallb filter].
  intros H. apply andb_prop in H. destruct H as [Hx Hl].
  now rewrite Hx, IH.
Qed.

Lemma call_adapter_messages c :
  exists added,
    messages (call_adapter c) = messages c ++ added
    /\ forallb not_system added = true.
Proof.
  unfold Sidebar.call_adapter.
  destruct (deliver_messages
              (calls (chat (request c))) (emit (ChatCall (request c)) c))
    as (added & Hm & Ha).
  exists added. split; [|exact Ha].
  now destruct (thrown (chat (request c))).
Qed.

(** X9: the user message that sendMessage appends is the draft without the
    white space around it: its content is not empty and neither begins nor
    ends with white space or a line terminator. *)
Theorem user_message_is_trimmed c :
  trim (currentInput c) <> [] -> isLoading c = false -> configured c ->
  exists text replies,
    messages (sendMessage c)
    = messages c ++ {| role := user; content := text |} :: replies
    /\ text = trim (currentInput c)
    /\ (forall ch, hd_error text = Some ch -> is_trimmed ch = false)
    /\ (forall ch, hd_error (rev text) = Some ch -> is_trimmed ch = false).
Proof.
  intros Hd Hl Hc. rewrite sendMessage_accepted by assumption.
  destruct (call_adapter_messages (begin_turn c)) as (replies & Hm & _).
  exists (trim (currentInput c)), replies. repeat split.
  - rewrite Hm. cbn. now rewrite <- app_assoc.
  - apply trim_head.
  - apply trim_last.
Qed.

(** X10: sendMessage only ever appends to the history: whatever the state
    and whatever the adapter does, the former history is a prefix of the
    new one and no system message is added, so the messages shown grow by
    exactly what was added. *)
Theorem sendMessage_only_appends c :
  exists added,
    messages (sendMessage c) = messages c ++ added
    /\ forallb not_system added = true
    /\ shown (sendMessage c) = shown c ++ added.
Proof.
  assert (H : exists added,
             messages (sendMessage c) = messages c ++ added
             /\ forallb not_system added = true).
  { unfold Sidebar.sendMessage.
    destruct (send_refused c); [exists []; now rewrite app_nil_r|].
    destruct (truthy_opt (aiApiKey (settings c)));
      [|exists []; cbn; now rewrite app_nil_r].
    destruct (truthy_opt (aiModel (settings c)));
      [|exists []; cbn; now rewrite app_nil_r].
    cbn [negb].
    destruct (call_adapter_messages (begin_turn c)) as (replies & Hm & Hr).
    exists ({| role := user; content := trim (currentInput c) |} :: replies).
    split; [|exact Hr]. rewrite Hm. cbn. now rewrite <- app_assoc. }
  destruct H as (added & Hm & Ha). exists added. repeat split; try assumption.
  unfold shown. now rewrite Hm, filter_app, (filter_all _ _ Ha).
Qed.

(** X11: during a turn the streaming buffer holds exactly the chunks
    received so far, in order; chunks touch neither the history nor
    isLoading, and the streaming bubble shows as soon as a chunk was not
    empty. *)
Theorem chunks_fill_streaming_buffer c chunks :
  streamingMessage (deliver (map OnChunk chunks) (begin_turn c))
  = concat chunks
  /\ messages (deliver (map OnChunk chunks) (begin_turn c))
     = messages (begin_turn c)
  /\ isLoading (deliver (map OnChunk chunks) (begin_turn c)) = true
  /\ shows_streaming (deliver (map OnChunk chunks) (begin_turn c))
     = truthy (concat chunks).
Proof.
  destruct (deliver_chunks estimateTokens calculateTotalTokens chunks
              (begin_turn c)) as (Hm & Hl & _ & _ & Hb).
  unfold shows_streaming. rewrite Hm, Hl, Hb. repeat split.
Qed.

Lemma shown_seeded (s : Settings) : filter not_system (seeded s) = [].
Proof. unfold seeded. now destruct (system_prompt s). Qed.

(** X12: clearChat does not end a turn in flight: isLoading and the draft
    are as before, the hint of the empty conversation shows only when no
    turn is in flight, and a reply that completes afterwards lands in the
    cleared history. *)
Theorem clearChat_keeps_turn_in_flight c full :
  isLoading (clearChat c) = isLoading c
  /\ currentInput (clearChat c) = currentInput c
  /\ shows_empty (clearChat c) = negb (isLoading c)
  /\ messages (onComplete full (clearChat c))
     = seeded (settings c) ++ [{| role := assistant; content := full |}].
Proof.
  repeat split.
  unfold shows_empty, shown.
  change (messages (clearChat c)) with (seeded (settings c)).
  now rewrite shown_seeded.
Qed.

(** X13: a turn that the adapter ends with onError leaves the draft empty
    and the user message in the history, so the next message the user
    sends goes to the adapter together with the one that failed. *)
Theorem retry_resends_failed_message c chunks err text :
  trim (currentInput c) <> [] -> isLoading c = false -> configured c ->
  calls (chat (request (begin_turn c))) = map OnChunk chunks ++ [OnError err] ->
  trim text <> [] ->
  currentInput (sendMessage c) = []
  /\ send_refused (input text (sendMessage c)) = false
  /\ configured (input text (sendMessage c))
  /\ chat_messages (options (request (begin_turn (input text (sendMessage c)))))
     = seeded (settings c)
       ++ shown c
       ++ [ {| role := user; content := trim (currentInput c) |};
            {| role := user; content := trim text |} ].
Proof.
  intros Hd Hl Hc Hr Ht.
  rewrite sendMessage_accepted by assumption.
  unfold Sidebar.call_adapter. rewrite Hr, deliver_app.
  destruct (deliver_chunks estimateTokens calculateTotalTokens chunks
              (emit (ChatCall (request (begin_turn c))) (begin_turn c)))
    as (Hm & _ & Hi & Hs & _).
  set (d := Sidebar.deliver estimateTokens calculateTotalTokens
              (map OnChunk chunks)
              (emit (ChatCall (request (begin_turn c))) (begin_turn c))) in *.
  assert (E : forall x,
             (match thrown (chat (request (begin_turn c))) with
              | Some error =>
                  catch error (deliver [OnError err] d)
              | None => deliver [OnError err] d
              end) = x ->
             messages x = messages d /\ currentInput x = currentInput d
             /\ settings x = settings d /\ isLoading x = false).
  { intros x <-. now destruct (thrown (chat (request (begin_turn c)))). }
  destruct (E _ eq_refl) as (Em & Ei & Es & El). clear E.
  repeat split.
  - rewrite Ei, Hi. reflexivity.
  - unfold send_refused.
    change (isLoading (input text ?x)) with (isLoading x).
    change (currentInput (input text ?x)) with text.
    now rewrite El, (truthy_trim Ht).
  - change (settings (input text ?x)) with (settings x).
    rewrite Es, Hs. apply Hc.
  - change (settings (input text ?x)) with (settings x).
    rewrite Es, Hs. apply Hc.
  - change (chat_messages (options (request (begin_turn ?x))))
      with (messagesToSend (begin_turn x)).
    unfold messagesToSend.
    change (settings (begin_turn (input text ?x))) with (settings x).
    change (messages (begin_turn (input text ?x)))
      with (messages x ++ [{| role := user; content := trim text |}]).
    rewrite Es, Hs, Em, Hm.
    change (settings (emit ?e (begin_turn c))) with (settings c).
    change (messages (emit ?e (begin_turn c)))
      with (messages c
              ++ [{| role := user; content := trim (currentInput c) |}]).
    rewrite !filter_app. cbn [filter not_system role].
    unfold seeded, shown.
    destruct (system_prompt (settings c)); cbn [app];
      now rewrite <- !app_assoc.
Qed.

(** *** What every event keeps *)

Lemma send_start_cases c :
  send_start c = c
  \/ (exists text, send_start c = pushErrMsg text c)
  \/ send_start c = emit (ChatCall (request (begin_turn c))) (begin_turn c).
Proof.
  unfold Sidebar.send_start.
  destruct (send_refused c); [now left|].
  destruct (truthy_opt (aiApiKey (settings c))); cbn [negb];
    [|right; left; eauto].
  destruct (truthy_opt (aiModel (settings c))); cbn [negb];
    [|right; left; eauto].
  right. now right.
Qed.

Lemma step_settings c e : settings (step c e) = settings c.
Proof.
  destruct e as [text| |key shiftKey|cb|error|written|]; try reflexivity.
  - destruct (send_start_cases c) as [H|[[text H]|H]];
      cbn [Sidebar.step]; now rewrite H.
  - cbn [Sidebar.step].
    destruct (JS.eqb key (lit "Enter") && negb shiftKey); [|reflexivity].
    destruct (send_start_cases c) as [H|[[text H]|H]]; now rewrite H.
  - now destruct cb.
  - now destruct written.
Qed.

Lemma seeded_history_snoc c c' msg :
  seeded_history c -> settings c' = settings c ->
  messages c' = messages c ++ [msg] -> not_system msg = true ->
  seeded_history c'.
Proof.
  intros (rest & Hm & Hr) Hs Hm' Hn. exists (rest ++ [msg]). split.
  - now rewrite Hm', Hm, Hs, <- app_assoc.
  - rewrite forallb_app, Hr. cbn. now rewrite Hn.
Qed.

Lemma seeded_history_same c c' :
  seeded_history c -> settings c' = settings c ->
  messages c' = messages c -> seeded_history c'.
Proof.
  intros (rest & Hm & Hr) Hs Hm'. exists rest. now rewrite Hm', Hs.
Qed.

Lemma send_start_seeded c : seeded_history c -> seeded_history (send_start c).
Proof.
  intros H. destruct (send_start_cases c) as [E|[[text E]|E]]; rewrite E.
  - exact H.
  - now apply seeded_history_same with c.
  - now apply seeded_history_snoc
      with c {| role := user; content := trim (currentInput c) |}.
Qed.

Lemma step_seeded c e : seeded_history c -> seeded_history (step c e).
Proof.
  intros H. destruct e as [text| |key shiftKey|cb|error|written|].
  - now apply seeded_history_same with c.
  - now apply send_start_seeded.
  - cbn [Sidebar.step].
    destruct (JS.eqb key (lit "Enter") && negb shiftKey); [|exact H].
    now apply send_start_seeded.
  - destruct cb as [chunk|full|err].
    + now apply seeded_history_same with c.
    + now apply seeded_history_snoc
        with c {| role := assistant; content := full |}.
    + now apply seeded_history_same with c.
  - now apply seeded_history_same with c.
  - destruct written; now apply seeded_history_same with c.
  - exists []. split; [|reflexivity]. cbn. now rewrite app_nil_r.
Qed.

Lemma life_snoc loaded events e :
  life loaded (events ++ [e]) = step (life loaded events) e.
Proof. unfold Sidebar.life. now rewrite fold_left_app. Qed.

Lemma life_settings loaded events : settings (life loaded events) = loaded.
Proof.
  induction events as [|e events IH] using rev_ind.
  - unfold Sidebar.life, Sidebar.onMount. cbn [fold_left].
    now destruct (system_prompt loaded).
  - now rewrite life_snoc, step_settings.
Qed.

Lemma life_seeded loaded events : seeded_history (life loaded events).
Proof.
  induction events as [|e events IH] using rev_ind.
  - exists []. split; [|reflexivity]. rewrite app_nil_r, life_settings.
    unfold Sidebar.life, Sidebar.onMount, seeded. cbn [fold_left].
    now destruct (system_prompt loaded).
  - rewrite life_snoc. now apply step_seeded.
Qed.

Lemma seeded_sent c : seeded_history c -> messagesToSend c = messages c.
Proof.
  intros (rest & Hm & Hr). unfold messagesToSend. rewrite Hm, filter_app.
  rewrite shown_seeded, (filter_all _ _ Hr). unfold seeded.
  now destruct (system_prompt (settings c)).
Qed.

(** X14: in every state the component reaches after onMount, whatever the
    events (edits, sends, keys, hooks of the adapter in any order,
    exceptions, copies, clears), the history holds the system prompt of
    the settings at its head and nowhere else; so the list that
    sendMessage hands to the adapter is the whole history, the new user
    message included. *)
Theorem life_sends_whole_history loaded events :
  messages (life loaded events)
  = seeded loaded ++ shown (life loaded events)
  /\ messagesToSend (life loaded events) = messages (life loaded events)
  /\ chat_messages (options (request (begin_turn (life loaded events))))
     = messages (life loaded events)
       ++ [{| role := user;
              content := trim (currentInput (life loaded events)) |}].
Proof.
  pose proof (life_seeded loaded events) as H.
  pose proof (life_settings loaded events) as Hs.
  repeat split.
  - destruct H as (rest & Hm & Hr). unfold shown.
    rewrite Hm, filter_app, shown_seeded, (filter_all _ _ Hr), Hs.
    reflexivity.
  - now apply seeded_sent.
  - change (chat_messages (options (request (begin_turn ?x))))
      with (messagesToSend (begin_turn x)).
    rewrite seeded_sent; [reflexivity|].
    now apply seeded_history_snoc
      with (life loaded events)
           {| role := user;
              content := trim (currentInput (life loaded events)) |}.
Qed.

(** X15: settings are read once: no event changes them; and clearChat, at
    any time after onMount, returns the history to what onMount built, of
    which nothing is shown. *)
Theorem clearChat_returns_to_mount loaded events :
  settings (life loaded events) = loaded
  /\ messages (clearChat (life loaded events))
     = messages (onMount loaded initial)
  /\ shown (clearChat (life loaded events)) = [].
Proof.
  pose proof (life_settings loaded events) as Hs. repeat split.
  - exact Hs.
  - change (messages (clearChat ?x)) with (seeded (settings x)).
    rewrite Hs. cbn. unfold seeded. now destruct (system_prompt loaded).
  - unfold shown. change (messages (clearChat ?x)) with (seeded (settings x)).
    apply shown_seeded.
Qed.

Lemma send_start_counted c : counted c -> counted (send_start c).
Proof.
  intros H. destruct (send_start_cases c) as [E|[[text E]|E]]; rewrite E.
  - exact H.
  - exact H.
  - split; reflexivity.
Qed.

Lemma step_counted c e : counted c -> counted (step c e).
Proof.
  intros H. destruct e as [text| |key shiftKey|cb|error|written|].
  - split; reflexivity.
  - now apply send_start_counted.
  - cbn [Sidebar.step].
    destruct (JS.eqb key (lit "Enter") && negb shiftKey); [|exact H].
    now apply send_start_counted.
  - destruct cb as [chunk|full|err]; [exact H | split; reflexivity | exact H].
  - exact H.
  - destruct written; exact H.
  - split; reflexivity.
Qed.

(** X16: in every state the component reaches after onMount, whatever the
    events, the two token counters on display are those of the current
    history and of the current draft. *)
Theorem life_token_counts loaded events :
  totalTokens (life loaded events)
  = calculateTotalTokens (messages (life loaded events))
  /\ inputTokens (life loaded events)
     = estimateTokens (currentInput (life loaded events)).
Proof.
  change (counted (life loaded events)).
  induction events as [|e events IH] using rev_ind.
  - split; reflexivity.
  - rewrite life_snoc. now apply step_counted.
Qed.

End Lifecycle.

(** ** More on the Markdown export *)

Lemma join_app sep (l1 l2 : list jsstring) :
  join sep (l1 ++ l2)
  = join sep l1
    ++ match l1, l2 with
       | _ :: _, _ :: _ => sep
       | _, _ => []
       end
    ++ join sep l2.
Proof.
  induction l1 as [|p l1 IH]; [reflexivity|].
  destruct l1 as [|q l1].
  - destruct l2 as [|r l2]; cbn [app join]; [now rewrite !app_nil_r|].
    reflexivity.
  - change (join sep ((p :: q :: l1) ++ l2))
      with (p ++ sep ++ join sep ((q :: l1) ++ l2)).
    rewrite IH. change (join sep (p :: q :: l1))
      with (p ++ sep ++ join sep (q :: l1)).
    destruct l2; now rewrite <- !app_assoc.
Qed.

(** X18: the export follows the history piece by piece: the export of two
    histories one after the other is the export of the first, a rule when
    both have something to export, and the export of the second; so a
    conversation that goes on only adds to the end of its export. *)
Theorem markdown_app h1 h2 :
  markdown (h1 ++ h2)
  = markdown h1
    ++ (if has_conversation h1 && has_conversation h2 then rule else [])
    ++ markdown h2.
Proof.
  unfold markdown. rewrite filter_app, map_app, join_app.
  rewrite !has_conversation_filter.
  destruct (filter not_system h1), (filter not_system h2); reflexivity.
Qed.

(** X19: the export does not escape what the messages say: a message whose
    content holds a rule and a role header exports exactly like two
    messages, so a history cannot be read back from its export. *)
Theorem markdown_unescaped a b :
  markdown [ {| role := user; content := a |};
             {| role := user; content := b |} ]
  = markdown [ {| role := user;
                  content := a ++ [newline] ++ rule ++ header_user
                               ++ [newline; newline] ++ b |} ].
Proof.
  unfold markdown, block. cbn [filter not_system role map join content].
  now rewrite <- !app_assoc.
Qed.

(** X17: with nothing but system entries in the history, copyAsMarkdown
    writes the empty string to the clipboard and announces the copy all the
    same; the history is left as it is. *)
Theorem copy_of_empty_conversation
        (number AIProvider : Type) (c : Component number AIProvider) :
  shown c = [] ->
  trace (copyAsMarkdown Written c)
  = trace c ++ [ClipboardWrite []; PushMsg msg_copied]
  /\ messages (copyAsMarkdown Written c) = messages c.
Proof.
  intros H. split; [|reflexivity].
  cbn. unfold markdown. unfold shown in H. rewrite H.
  now rewrite <- app_assoc.
Qed.

(** ** The added theorems at work *)

Lemma formatMessage_plain_prefix_witness :
  plain (lit "see: ")
  /\ formatMessage (lit "see: " ++ lit "**this**")
     = nl2br (lit "see: ") ++ formatMessage (lit "**this**").
Proof.
  assert (Hp : plain (lit "see: "))
    by (split; vm_compute; intuition discriminate).
  split; [exact Hp | exact (@formatMessage_plain_prefix _ _ Hp)].
Defined.

Lemma one_line_word : one_line (lit "this").
Proof.
  intros c H. vm_compute in H.
  repeat (destruct H as [<-|H]; [reflexivity|]). destruct H.
Qed.

Lemma plain_word : plain (lit "this").
Proof. split; vm_compute; intuition discriminate. Qed.

Lemma plain_lead : plain (lit "see: ").
Proof. split; vm_compute; intuition discriminate. Qed.

Lemma formatMessage_bold_span_witness :
  formatMessage (lit "see: **this** and `that`")
  = lit "see: <strong>this</strong> and <code>that</code>".
Proof.
  change (formatMessage
            (lit "see: " ++ [star; star] ++ lit "this" ++ [star; star]
                 ++ lit " and `that`")
          = lit "see: <strong>this</strong> and <code>that</code>").
  rewrite (@formatMessage_bold_span _ _ (lit " and `that`")
             plain_lead plain_word one_line_word).
  reflexivity.
Defined.

Lemma formatMessage_italic_span_witness :
  formatMessage (lit "see: *this* and `that`")
  = lit "see: <em>this</em> and <code>that</code>".
Proof.
  assert (Hn : lit "this" <> []) by discriminate.
  assert (Hb : hd_error (lit " and `that`") <> Some star) by discriminate.
  change (formatMessage
            (lit "see: " ++ [star] ++ lit "this" ++ [star]
                 ++ lit " and `that`")
          = lit "see: <em>this</em> and <code>that</code>").
  rewrite (@formatMessage_italic_span _ _ _ plain_lead Hn plain_word
             one_line_word Hb).
  reflexivity.
Defined.

Lemma formatMessage_code_span_witness :
  formatMessage (lit "see: `this` and **that**")
  = lit "see: <code>this</code> and <strong>that</strong>".
Proof.
  assert (Hn : lit "this" <> []) by discriminate.
  change (formatMessage
            (lit "see: " ++ [backtick] ++ lit "this" ++ [backtick]
                 ++ lit " and **that**")
          = lit "see: <code>this</code> and <strong>that</strong>").
  rewrite (@formatMessage_code_span _ _ (lit " and **that**")
             plain_lead Hn plain_word).
  reflexivity.
Defined.

Lemma blank_draft_is_refused_witness :
  Demo.send Demo.answering_four Demo.blank = Demo.blank
  /\ send_disabled Demo.blank = true.
Proof.
  apply blank_draft_is_refused.
  intros ch H. vm_compute in H.
  repeat (destruct H as [<-|H]; [reflexivity|]). destruct H.
Defined.

Lemma user_message_is_trimmed_witness :
  exists text replies,
    messages (Demo.send Demo.answering_four Demo.ready)
    = messages Demo.ready ++ {| role := user; content := text |} :: replies
    /\ text = trim (currentInput Demo.ready)
    /\ (forall ch, hd_error text = Some ch -> is_trimmed ch = false)
    /\ (forall ch, hd_error (rev text) = Some ch -> is_trimmed ch = false).
Proof.
  apply user_message_is_trimmed.
  - vm_compute. discriminate.
  - reflexivity.
  - split; reflexivity.
Defined.

Lemma retry_resends_failed_message_witness :
  chat_messages
    (options
       (request Demo.number_truthy Demo.default_temperature
          Demo.default_maxTokens
          (begin_turn Demo.estimateTokens Demo.calculateTotalTokens
             (input Demo.estimateTokens Demo.calculateTotalTokens
                (lit "again") (Demo.send Demo.failing Demo.ready)))))
  = [ {| role := user; content := lit "hello" |};
      {| role := user; content := lit "again" |} ].
Proof.
  assert (Hd : trim (currentInput Demo.ready) <> [])
    by (vm_compute; discriminate).
  assert (Hl : isLoading Demo.ready = false) by reflexivity.
  assert (Hc : configured Demo.ready) by (split; reflexivity).
  assert (Ht : trim (lit "again") <> []) by (vm_compute; discriminate).
  destruct (@retry_resends_failed_message
              _ Demo.number_truthy Demo.default_temperature
              Demo.default_maxTokens _ Demo.estimateTokens
              Demo.calculateTotalTokens Demo.failing
              Demo.ready [lit "par"] (lit "network down") (lit "again")
              Hd Hl Hc eq_refl Ht)
    as (_ & _ & _ & H).
  unfold Demo.send. rewrite H. reflexivity.
Defined.

Lemma copy_of_empty_conversation_witness :
  shown Demo.prompted = []
  /\ trace (copyAsMarkdown Written Demo.prompted)
     = trace Demo.prompted ++ [ClipboardWrite []; PushMsg msg_copied].
Proof.
  split; [reflexivity|].
  apply (copy_of_empty_conversation Demo.prompted eq_refl).
Defined.
